(** * Bumpin: the Swift structure validator
    ([scripts/validate_swift_structure.py])

    A shallow embedding of the validator script and the properties of its
    three checks (delimiter balance, duplicate type names, top-level
    private declarations) and of its driver.

    Python strings are sequences of Unicode code points: a character is a
    code point [N], a string a list of them.  The parts of the Unicode
    character database the script reaches through [str.lower], [\s] and
    [\b] are an interface ([UnicodeDB]) for the code points above ASCII;
    the ASCII part is written out.  [pathlib] and the file system are an
    interface too ([PathLib]). *)

From Stdlib Require Import Ascii String DecimalString.
From Stdlib Require Import List NArith ZArith Arith Bool Lia.
Import ListNotations.

Set Implicit Arguments.

(* ================================================================== *)
(** ** Strings *)

Definition char := N.
Definition str := list char.

Definition chr (a : ascii) : char := N_of_ascii a.

(** A string literal of the source, as code points. *)
Definition lit (s : string) : str := map chr (list_ascii_of_string s).

Definition char_eqb (a b : char) : bool := N.eqb a b.

Fixpoint str_eqb (a b : str) : bool :=
  match a, b with
  | [], [] => true
  | x :: a', y :: b' => char_eqb x y && str_eqb a' b'
  | _, _ => false
  end.

Definition str_eq_dec : forall a b : str, {a = b} + {a <> b} :=
  list_eq_dec N.eq_dec.

(** [ch in collection] *)
Definition mem (c : char) (l : list char) : bool := existsb (char_eqb c) l.

(** [s.startswith(p)] *)
Fixpoint startswith (s p : str) {struct p} : bool :=
  match p, s with
  | [], _ => true
  | x :: p', y :: s' => char_eqb x y && startswith s' p'
  | _ :: _, [] => false
  end.

(** [s.endswith(p)] *)
Definition endswith (s p : str) : bool :=
  (length p <=? length s) && str_eqb (skipn (length s - length p) s) p.

(** [p in s] for strings: [p] occurs in [s] as a contiguous substring. *)
Fixpoint contains (p s : str) : bool :=
  startswith s p ||
  match s with
  | [] => false
  | _ :: s' => contains p s'
  end.

(** [str(i)] for a non-negative integer: its decimal digits. *)
Definition str_of_nat (i : nat) : str :=
  lit (NilZero.string_of_uint (Nat.to_uint i)).

(** What a call that may raise gives: its result, or the text [str(e)] of
    the exception. *)
Inductive result (A : Type) :=
| Ok (a : A)
| Raise (e : str).

Arguments Ok {A} a.
Arguments Raise {A} e.

(* ================================================================== *)
(** ** The parts of Unicode the script depends on *)

(** For a code point at or above 128: whether it is white space
    ([str.isspace], the class [\s]), whether it is alphanumeric (the class
    [\w] without the underscore), and what [str.lower] puts in its place
    (one to three code points, depending on the characters before and after
    for the capital sigma). *)
Class UnicodeDB := {
  uni_isspace : char -> bool;
  uni_isalnum : char -> bool;
  uni_lower : str -> char -> str -> str
}.

Definition in_range (lo hi c : char) : bool := (lo <=? c)%N && (c <=? hi)%N.

Definition is_ascii (c : char) : bool := (c <? 128)%N.

Definition is_upper_ascii (c : char) : bool := in_range 65%N 90%N c.
Definition is_lower_ascii (c : char) : bool := in_range 97%N 122%N c.
Definition is_digit_ascii (c : char) : bool := in_range 48%N 57%N c.

(** [A-Za-z_] and [A-Za-z0-9_] *)
Definition is_ident_start (c : char) : bool :=
  is_upper_ascii c || is_lower_ascii c || char_eqb c 95%N.
Definition is_ident_char (c : char) : bool :=
  is_ident_start c || is_digit_ascii c.

Section Unicode.
Context {U : UnicodeDB}.

(** [\s]: tab, line feed, vertical tab, form feed, carriage return, the
    four separators 0x1c-0x1f and the space, and Unicode white space. *)
Definition is_space (c : char) : bool :=
  if is_ascii c then in_range 9%N 13%N c || in_range 28%N 32%N c
  else uni_isspace c.

(** [\w]: alphanumeric or underscore. *)
Definition is_word (c : char) : bool :=
  if is_ascii c then is_ident_char c else uni_isalnum c.

(** [text.lower()] *)
Definition lower_char (before : str) (c : char) (after : str) : str :=
  if is_ascii c then [if is_upper_ascii c then (c + 32)%N else c]
  else uni_lower before c after.

Fixpoint lower_from (before : str) (s : str) : str :=
  match s with
  | [] => []
  | c :: s' => lower_char before c s' ++ lower_from (before ++ [c]) s'
  end.

Definition lower (s : str) : str := lower_from [] s.
End Unicode.

(** [text.splitlines()]: lines end at line feed, carriage return (with a
    following line feed as one boundary), vertical tab, form feed, the
    separators 0x1c-0x1e, NEL, and the line and paragraph separators; a
    final line boundary opens no empty last line. *)
Definition is_linebreak (c : char) : bool :=
  mem c [10; 13; 11; 12; 28; 29; 30; 133; 8232; 8233]%N.

Fixpoint splitlines_from (cur : str) (after_cr : bool) (s : str) : list str :=
  match s with
  | [] => match cur with [] => [] | _ => [cur] end
  | c :: s' =>
      if char_eqb c 10%N && after_cr then splitlines_from cur false s'
      else if is_linebreak c then cur :: splitlines_from [] (char_eqb c 13%N) s'
      else splitlines_from (cur ++ [c]) false s'
  end.

Definition splitlines (s : str) : list str := splitlines_from [] false s.

(* ================================================================== *)
(** ** Regular expressions ([re]) *)

(** The fragment of [re] the script uses, matched by backtracking as [re]
    does: greedy repetition first, alternatives left to right. *)
Inductive regex :=
| Eps
| Lit (s : str)                (* literal text *)
| Class (p : char -> bool)     (* one character of a class *)
| Star (p : char -> bool)      (* greedy repetition of a class *)
| Seq (r1 r2 : regex)
| Alt (r1 r2 : regex)
| Group (n : nat) (r : regex)  (* capturing group number n *)
| WordB                        (* \b *)
| Bol.                         (* ^ *)

Definition Plus (p : char -> bool) : regex := Seq (Class p) (Star p).
Definition Seqs (l : list regex) : regex := fold_right Seq Eps l.

(** A position in the subject string: its index, the character before it
    and the text from it on. *)
Record cursor := Cursor { pos : nat; prev : option char; rest : str }.

Definition captures := list (nat * str).

Record re_match := Match { m_start : nat; m_end : nat; m_caps : captures }.

(** [m.group(n)] *)
Fixpoint group (n : nat) (caps : captures) : str :=
  match caps with
  | [] => []
  | (k, s) :: caps' => if Nat.eqb k n then s else group n caps'
  end.

Fixpoint lit_at (s : str) (cu : cursor) : option cursor :=
  match s with
  | [] => Some cu
  | x :: s' =>
      match rest cu with
      | y :: r => if char_eqb x y then lit_at s' (Cursor (S (pos cu)) (Some y) r)
                  else None
      | [] => None
      end
  end.

Section Matcher.
Context {U : UnicodeDB}.
Variable A : Type.

Definition opt_word (c : option char) : bool :=
  match c with Some x => is_word x | None => false end.

(** [\b]: exactly one of the two neighbours is a word character. *)
Definition word_boundary (cu : cursor) : bool :=
  xorb (opt_word (prev cu)) (opt_word (hd_error (rest cu))).

Fixpoint star_at (p : char -> bool) (k : cursor -> option A)
    (n : nat) (pv : option char) (r : str) : option A :=
  match r with
  | y :: r' =>
      if p y then
        match star_at p k (S n) (Some y) r' with
        | Some a => Some a
        | None => k (Cursor n pv r)
        end
      else k (Cursor n pv r)
  | [] => k (Cursor n pv r)
  end.

Fixpoint rmatch (r : regex) (cu : cursor) (caps : captures)
    (k : cursor -> captures -> option A) : option A :=
  match r with
  | Eps => k cu caps
  | Lit s => match lit_at s cu with Some cu' => k cu' caps | None => None end
  | Class p =>
      match rest cu with
      | y :: r' => if p y then k (Cursor (S (pos cu)) (Some y) r') caps else None
      | [] => None
      end
  | Star p => star_at p (fun cu' => k cu' caps) (pos cu) (prev cu) (rest cu)
  | Seq r1 r2 => rmatch r1 cu caps (fun cu1 caps1 => rmatch r2 cu1 caps1 k)
  | Alt r1 r2 =>
      match rmatch r1 cu caps k with
      | Some a => Some a
      | None => rmatch r2 cu caps k
      end
  | Group n r0 =>
      rmatch r0 cu caps (fun cu' caps' =>
        k cu' ((n, firstn (pos cu' - pos cu) (rest cu)) :: caps'))
  | WordB => if word_boundary cu then k cu caps else None
  | Bol => if Nat.eqb (pos cu) 0 then k cu caps else None
  end.
End Matcher.

Section Regex.
Context {U : UnicodeDB}.

(** A match of [r] that starts at the cursor. *)
Definition match_at (r : regex) (cu : cursor) : option re_match :=
  rmatch r cu [] (fun cu' caps => Some (Match (pos cu) (pos cu') caps)).

(** [r.search(s)]: the match at the leftmost position that has one. *)
Fixpoint search_from (r : regex) (n : nat) (pv : option char) (s : str)
    : option re_match :=
  match match_at r (Cursor n pv s) with
  | Some m => Some m
  | None =>
      match s with
      | [] => None
      | c :: s' => search_from r (S n) (Some c) s'
      end
  end.

Definition search (r : regex) (s : str) : option re_match :=
  search_from r 0 None s.

(** [r.finditer(s)]: the matches from left to right, each search starting
    where the match before ended.  [skip] counts the characters of the
    last match still to step over.  (Exact for patterns that match no
    empty string, as both patterns of the script.) *)
Fixpoint finditer_from (r : regex) (skip n : nat) (pv : option char)
    (s : str) : list re_match :=
  match s with
  | [] =>
      match skip, match_at r (Cursor n pv []) with
      | O, Some m => [m]
      | _, _ => []
      end
  | c :: s' =>
      match skip with
      | S k => finditer_from r k (S n) (Some c) s'
      | O =>
          match match_at r (Cursor n pv s) with
          | Some m => m :: finditer_from r (m_end m - n - 1) (S n) (Some c) s'
          | None => finditer_from r 0 (S n) (Some c) s'
          end
      end
  end.

Definition finditer (r : regex) (s : str) : list re_match :=
  finditer_from r 0 0 None s.
End Regex.


(* ================================================================== *)
(** ** [pathlib], the file system and the effects of a run *)

(** [Path(arg)], [path.name], [str(path)], [target.is_file()],
    [target.rglob('*.swift')] in the order the generator yields, and
    [path.read_text(encoding='utf-8', errors='ignore')], which decodes
    every file it can open to some text and raises [OSError] for a path it
    cannot open: a directory, a dangling link, a file it may not read. *)
Class PathLib := {
  Path : Type;
  mkPath : str -> Path;
  path_name : Path -> str;
  path_str : Path -> str;
  is_file : Path -> bool;
  rglob_swift : Path -> list Path;
  read_text : Path -> result str
}.

(* ================================================================== *)
(** ** The script *)

(** [PAIR = {')':'(', '}':'{', ']':'['}] *)
Definition PAIR : list (char * char) :=
  [(chr ")", chr "("); (chr "}", chr "{"); (chr "]", chr "[")].

(** [OPEN = set(PAIR.values())] and [CLOSE = set(PAIR.keys())] *)
Definition OPEN : list char := map snd PAIR.
Definition CLOSE : list char := map fst PAIR.

(** [PAIR[ch]] *)
Fixpoint PAIR_get_in (d : list (char * char)) (c : char) : option char :=
  match d with
  | [] => None
  | (k, v) :: d' => if char_eqb c k then Some v else PAIR_get_in d' c
  end.

Definition PAIR_get (c : char) : option char := PAIR_get_in PAIR c.

(** [stack[-1]] *)
Fixpoint top (stack : list char) : option char :=
  match stack with
  | [] => None
  | [c] => Some c
  | _ :: stack' => top stack'
  end.

(** [not stack or stack[-1] != PAIR[ch]] *)
Definition mismatch (stack : list char) (c : char) : bool :=
  match top stack, PAIR_get c with
  | Some t, Some o => negb (char_eqb t o)
  | _, _ => true
  end.

(** The balance loop from offset [i] on: the stack when the loop ends, and
    the offset at which it broke off, if it did. *)
Fixpoint scan (i : nat) (stack : list char) (text : str)
    : list char * option nat :=
  match text with
  | [] => (stack, None)
  | c :: text' =>
      if mem c OPEN then scan (S i) (stack ++ [c]) text'
      else if mem c CLOSE then
        if mismatch stack c then (stack, Some i)
        else scan (S i) (removelast stack) text'
      else scan (S i) stack text'
  end.

(** A diagnostic as the script stores it: [f"{path}: <message>"]. *)
Definition tagged (pstr msg : str) : str := pstr ++ lit ": " ++ msg.

Definition mismatch_msg (i : nat) : str :=
  lit "Unbalanced or mismatched bracket around offset " ++ str_of_nat i.

Definition open_msg (stack : list char) : str :=
  lit "Unbalanced brackets, open=" ++ stack.

Definition duplicate_msg (name : str) : str :=
  lit "Duplicate type name detected: " ++ name.

Definition private_msg : str :=
  lit "Many top-level private declarations (>=3). Possible premature closing brace in a View.".

(** The balance check: what it leaves in [errors]. *)
Definition balance_check (pstr text : str) (errors : list str) : list str :=
  let '(stack, broke) := scan 0 [] text in
  let errors :=
    match broke with
    | Some i => errors ++ [tagged pstr (mismatch_msg i)]
    | None => errors
    end in
  match stack with
  | [] => errors
  | _ :: _ => errors ++ [tagged pstr (open_msg stack)]
  end.

(** [names.setdefault(k, []).append(v)] on a dict, which keeps its keys in
    the order of their first insertion. *)
Fixpoint setdefault_append (V : Type) (k : str) (v : V)
    (d : list (str * list V)) : list (str * list V) :=
  match d with
  | [] => [(k, [v])]
  | (k', vs) :: d' =>
      if str_eqb k k' then (k', vs ++ [v]) :: d'
      else (k', vs) :: setdefault_append k v d'
  end.

Section Checks.
Context {U : UnicodeDB}.

(** The pattern, its parts set apart:
    [\b (struct|class|enum) \s+ ( [A-Za-z_] [A-Za-z0-9_]* ) \b] *)
Definition TYPE_RE : regex :=
  Seqs [WordB;
        Group 1 (Alt (Lit (lit "struct")) (Alt (Lit (lit "class")) (Lit (lit "enum"))));
        Plus is_space;
        Group 2 (Seq (Class is_ident_start) (Star is_ident_char));
        WordB].

(** [^ \s* private \s+ (struct|class|enum|func|var|let) \b] *)
Definition TOP_PRIVATE_RE : regex :=
  Seqs [Bol; Star is_space; Lit (lit "private"); Plus is_space;
        Group 1 (Alt (Lit (lit "struct")) (Alt (Lit (lit "class"))
                (Alt (Lit (lit "enum")) (Alt (Lit (lit "func"))
                (Alt (Lit (lit "var")) (Lit (lit "let")))))));
        WordB].

(** The first loop of the duplicate check: the dict [names]. *)
Definition collect_names (text : str) : list (str * list (str * nat)) :=
  fold_left
    (fun names m =>
       setdefault_append (group 2 (m_caps m)) (group 1 (m_caps m), m_start m) names)
    (finditer TYPE_RE text) [].

(** The second loop: one diagnostic for every key with several entries. *)
Definition duplicate_check (pstr text : str) (errors : list str) : list str :=
  fold_left
    (fun errors item =>
       if 1 <? length (snd item)
       then errors ++ [tagged pstr (duplicate_msg (fst item))]
       else errors)
    (collect_names text) errors.

(** [top_privates] after the loop over the lines. *)
Definition count_top_privates (text : str) : nat :=
  fold_left
    (fun top_privates line =>
       match search TOP_PRIVATE_RE line with
       | Some _ => top_privates + 1
       | None => top_privates
       end)
    (splitlines text) 0.

Definition private_check (pstr text : str) (errors : list str) : list str :=
  if 3 <=? count_top_privates text
  then errors ++ [tagged pstr private_msg]
  else errors.
End Checks.

(** What a run does that can be observed: the calls that reach the file
    system and the lines printed, in the order they happen. *)
Inductive event {P : PathLib} :=
| EvIsFile (p : Path)
| EvRglob (p : Path)
| EvRead (p : Path)
| EvPrint (line : str).

(** The global list [errors] and the events so far. *)
Record state {P : PathLib} := State { errors : list str; trace : list event }.

(** How a run ends: its events and its exit status. *)
Record outcome {P : PathLib} := Outcome { out_trace : list event; exit_code : Z }.

(** How far a stretch of the run has come: it goes on with a state, or an
    exception was raised in that state, which nothing in the script
    catches. *)
Inductive progress {P : PathLib} :=
| Going (st : state)
| Raised (st : state) (e : str).

Section Driver.
Context {U : UnicodeDB} {P : PathLib}.

Definition log (e : event) (st : state) : state :=
  State (errors st) (trace st ++ [e]).

Definition on_errors (f : list str -> list str) (st : state) : state :=
  State (f (errors st)) (trace st).

Definition check_file (path : Path) (st : state) : progress :=
  if negb (endswith (path_name path) (lit ".swift")) then Going st
  else
    let st := log (EvRead path) st in
    match read_text path with
    | Raise e => Raised st e
    | Ok text =>
        if contains (lit "swiftlint:disable all") (lower text) then Going st
        else
          let st := on_errors (balance_check (path_str path) text) st in
          let st := on_errors (duplicate_check (path_str path) text) st in
          Going (on_errors (private_check (path_str path) text) st)
    end.

(** A [for] loop whose body may raise: the loop ends with the first
    exception. *)
Fixpoint for_each (A : Type) (body : A -> state -> progress)
    (items : list A) (st : state) : progress :=
  match items with
  | [] => Going st
  | x :: items' =>
      match body x st with
      | Going st' => for_each body items' st'
      | Raised st' e => Raised st' e
      end
  end.

Definition walk (target : Path) (st : state) : progress :=
  let st := log (EvIsFile target) st in
  if is_file target then check_file target st
  else for_each check_file (rglob_swift target) (log (EvRglob target) st).

Definition usage_line : str := lit "Usage: validate_swift_structure.py <dir_or_file>".
Definition completion_line : str := lit "Structure check completed (warnings may be shown)".
Definition structure_line (e : str) : str := lit "STRUCTURE: " ++ e.

(** The module body, run as a script with [sys.argv = argv].  An exception
    that is not caught ends the run with status 1, its traceback on
    standard error. *)
Definition main (argv : list str) : outcome :=
  if length argv <? 2 then Outcome [EvPrint usage_line] 2
  else
    match for_each (fun arg => walk (mkPath arg)) (skipn 1 argv) (State [] []) with
    | Raised st e => Outcome (trace st) 1
    | Going st =>
        let report :=
          match errors st with
          | [] => []
          | _ :: _ => map (fun e => EvPrint (structure_line e)) (errors st)
          end in
        Outcome (trace st ++ report ++ [EvPrint completion_line]) 0
    end.

(** Standard output: the lines printed, in order. *)
Fixpoint printed (t : list event) : list str :=
  match t with
  | [] => []
  | EvPrint line :: t' => line :: printed t'
  | _ :: t' => printed t'
  end.

Definition stdout (o : outcome) : list str := printed (out_trace o).

(** The files a run has read, or tried to, in order. *)
Fixpoint reads (t : list event) : list Path :=
  match t with
  | [] => []
  | EvRead p :: t' => p :: reads t'
  | _ :: t' => reads t'
  end.

(** Whether an event touches the file system. *)
Definition is_access (e : event) : bool :=
  match e with EvPrint _ => false | _ => true end.

(** The state a stretch of the run ended in, and whether it ended with an
    exception. *)
Definition state_of (r : progress) : state :=
  match r with Going st => st | Raised st _ => st end.

Definition raised (r : progress) : bool :=
  match r with Going _ => false | Raised _ _ => true end.

(** What a stretch of the run does to a state, seen from outside: whether
    it raises, the diagnostics it adds, the files it reads, and that it
    prints nothing. *)
Definition does (r : progress) (st : state) (fails : bool)
    (added : list str) (read : list Path) : Prop :=
  raised r = fails /\
  errors (state_of r) = errors st ++ added /\
  reads (trace (state_of r)) = reads (trace st) ++ read /\
  (forallb is_access (trace st) = true ->
   forallb is_access (trace (state_of r)) = true).
End Driver.

(* ================================================================== *)
(** ** A small world to run the script in *)

(** A character database with nothing above ASCII. *)
Definition ascii_db : UnicodeDB :=
  {| uni_isspace := fun _ => false;
     uni_isalnum := fun _ => false;
     uni_lower := fun _ c _ => [c] |}.

Fixpoint last_component (cur s : str) : str :=
  match s with
  | [] => cur
  | c :: s' => if char_eqb c (chr "/") then last_component [] s'
               else last_component (cur ++ [c]) s'
  end.

(** A file system given by its files, as pairs of a path and a text, and
    its directories, as pairs of a path and the list [rglob] yields.
    Reading a path that is no file raises. *)
Definition fs_lookup (V : Type) (d : list (str * V)) (p : str) : option V :=
  option_map snd (find (fun kv => str_eqb p (fst kv)) d).

Definition toy_fs (files : list (str * str)) (dirs : list (str * list str))
    : PathLib :=
  {| Path := str;
     mkPath := fun s => s;
     path_name := last_component [];
     path_str := fun p => p;
     is_file := fun p => match fs_lookup files p with Some _ => true | None => false end;
     rglob_swift := fun p => match fs_lookup dirs p with Some l => l | None => [] end;
     read_text := fun p =>
       match fs_lookup files p with
       | Some t => Ok t
       | None =>
           match fs_lookup dirs p with
           | Some _ => Raise (lit "[Errno 21] Is a directory")
           | None => Raise (lit "[Errno 2] No such file or directory")
           end
       end |}.

(** A generated file that opts out, with unbalanced brackets and a
    duplicate name in it. *)
Definition generated_world : PathLib :=
  toy_fs [(lit "Gen.swift",
           lit "// SwiftLint:Disable ALL" ++ [10%N] ++ lit "struct A { struct A ((")]
         [].

(** Two Swift files next to a text file and below a directory. *)
Definition project_world : PathLib :=
  toy_fs [(lit "a.swift", lit "f(]"); (lit "c.txt", lit "(((");
          (lit "d/b.swift", lit "struct A struct A {")]
         [(lit "d", [lit "d/b.swift"])].

(** Two Swift files, the first with an open parenthesis. *)
Definition two_files_world : PathLib :=
  toy_fs [(lit "a.swift", lit "("); (lit "b.swift", lit "")] [].

(** A text file that is no Swift source. *)
Definition notes_world : PathLib :=
  toy_fs [(lit "notes.txt", lit "((( struct A struct A")] [].

(** A directory of dependencies with a directory in it whose name ends in
    [.swift], which [rglob] yields before a Swift file with an open brace. *)
Definition pods_world : PathLib :=
  toy_fs [(lit "Pods/App.swift", lit "struct App {")]
         [(lit "Pods", [lit "Pods/SQLite.swift"; lit "Pods/App.swift"]);
          (lit "Pods/SQLite.swift", [])].

(* ================================================================== *)
(** ** What the properties are stated with *)

(** Texts whose delimiters are balanced and correctly nested: the empty
    text, a character that is no delimiter before such a text, and an
    opener, such a text, the closer of that opener, and such a text. *)
Inductive balanced : str -> Prop :=
| balanced_nil : balanced []
| balanced_plain c s :
    mem c OPEN = false -> mem c CLOSE = false ->
    balanced s -> balanced (c :: s)
| balanced_nest o c s t :
    PAIR_get c = Some o ->
    balanced s -> balanced t -> balanced (o :: s ++ c :: t).

(** [m] is [marker] in some letter casing: character by character, the one
    of [marker] or, where that is a small letter, its capital. *)
Definition any_casing (m marker : str) : Prop :=
  Forall2 (fun x y => x = y \/ (is_lower_ascii y = true /\ (x + 32)%N = y))
          m marker.

(** Whether a line is one the private-declaration loop counts. *)
Definition is_top_private {U : UnicodeDB} (line : str) : bool :=
  match search TOP_PRIVATE_RE line with Some _ => true | None => false end.

(** The names the declaration pattern matches in a text, one for every
    match, in the order of the matches. *)
Definition matched_names {U : UnicodeDB} (text : str) : list str :=
  map (fun m => group 2 (m_caps m)) (finditer TYPE_RE text).

(** How often a string occurs in a list of strings. *)
Definition occurrences (s : str) (l : list str) : nat := count_occ str_eq_dec l s.

(** The three kinds of diagnostic and the messages of each kind. *)
Inductive kind := Balance | Duplicate | Private.

Inductive diagnostic_of (pstr : str) : kind -> str -> Prop :=
| diagnostic_mismatch i : diagnostic_of pstr Balance (tagged pstr (mismatch_msg i))
| diagnostic_open stack : diagnostic_of pstr Balance (tagged pstr (open_msg stack))
| diagnostic_duplicate name :
    diagnostic_of pstr Duplicate (tagged pstr (duplicate_msg name))
| diagnostic_private : diagnostic_of pstr Private (tagged pstr private_msg).

Section Report.
Context {U : UnicodeDB} {P : PathLib}.

(** The files a walk checks, in traversal order: the target itself when
    it is a file, what [rglob] yields otherwise. *)
Definition walked (target : Path) : list Path :=
  if is_file target then [target] else rglob_swift target.

(** The files one path argument stands for. *)
Definition targets (arg : str) : list Path := walked (mkPath arg).

(** [path.name.endswith('.swift')] *)
Definition has_swift_name (path : Path) : bool :=
  endswith (path_name path) (lit ".swift").

(** Whether checking a file raises: its name ends in [.swift], so that it
    is read, and reading it raises. *)
Definition raises (path : Path) : bool :=
  has_swift_name path &&
  match read_text path with Raise _ => true | Ok _ => false end.

(** The files of a list that a run reaches: those up to the first whose
    check raises, and that one. *)
Fixpoint up_to_failure (paths : list Path) : list Path :=
  match paths with
  | [] => []
  | p :: paths' => if raises p then [p] else p :: up_to_failure paths'
  end.

(** The diagnostics of one file: those of the balance check, then those of
    the duplicate check, then that of the private check. *)
Definition file_report (path : Path) : list str :=
  if endswith (path_name path) (lit ".swift") then
    match read_text path with
    | Raise _ => []
    | Ok text =>
        if contains (lit "swiftlint:disable all") (lower text) then []
        else balance_check (path_str path) text []
             ++ duplicate_check (path_str path) text []
             ++ private_check (path_str path) text []
    end
  else [].

(** What a run prints: the usage line when it has no path argument,
    nothing when the check of a walked file raises, and otherwise a line
    for every diagnostic, in the order of the files and of the checks,
    and then the completion line. *)
Definition expected_stdout (argv : list str) : list str :=
  if length argv <? 2 then [usage_line]
  else if existsb raises (flat_map targets (skipn 1 argv)) then []
  else map structure_line (flat_map file_report (flat_map targets (skipn 1 argv)))
       ++ [completion_line].

(** A run streams its report when, at every point of its trace where a
    file is read, the lines printed so far are the diagnostics of the files
    read before: each file's diagnostics are out before the next file is
    read. *)
Definition streaming (t : list event) : Prop :=
  forall t1 q t2,
    t = t1 ++ EvRead q :: t2 ->
    printed t1 = map structure_line (flat_map file_report (reads t1)).
End Report.

(** The character before the position reached by stepping over [s]. *)
Definition prev_after (s : str) (pv : option char) : option char :=
  fold_left (fun _ c => Some c) s pv.

(** The cursor reached from [cu] by stepping over [s], with [r] left. *)
Definition stepped (cu : cursor) (s r : str) : cursor :=
  Cursor (pos cu + length s) (prev_after s (prev cu)) r.

(** What it means for a pattern to match a stretch of the subject: from
    which cursor to which, and with which groups captured.  The matcher
    explores these matches in the order of [re]. *)
Inductive matches {U : UnicodeDB}
    : regex -> cursor -> captures -> cursor -> captures -> Prop :=
| matches_Eps cu caps : matches Eps cu caps cu caps
| matches_Lit s cu r caps :
    rest cu = s ++ r -> matches (Lit s) cu caps (stepped cu s r) caps
| matches_Class p cu y r caps :
    rest cu = y :: r -> p y = true ->
    matches (Class p) cu caps (stepped cu [y] r) caps
| matches_Star p cu ws r caps :
    rest cu = ws ++ r -> forallb p ws = true ->
    matches (Star p) cu caps (stepped cu ws r) caps
| matches_Seq r1 r2 cu caps cu1 caps1 cu2 caps2 :
    matches r1 cu caps cu1 caps1 -> matches r2 cu1 caps1 cu2 caps2 ->
    matches (Seq r1 r2) cu caps cu2 caps2
| matches_Alt_l r1 r2 cu caps cu' caps' :
    matches r1 cu caps cu' caps' -> matches (Alt r1 r2) cu caps cu' caps'
| matches_Alt_r r1 r2 cu caps cu' caps' :
    matches r2 cu caps cu' caps' -> matches (Alt r1 r2) cu caps cu' caps'
| matches_Group n r cu caps cu' caps' :
    matches r cu caps cu' caps' ->
    matches (Group n r) cu caps cu'
            ((n, firstn (pos cu' - pos cu) (rest cu)) :: caps')
| matches_WordB cu caps :
    word_boundary cu = true -> matches WordB cu caps cu caps
| matches_Bol cu caps : pos cu = 0 -> matches Bol cu caps cu caps.

(** The keywords a counted private declaration may start with. *)
Definition decl_keywords : list str :=
  [lit "struct"; lit "class"; lit "enum"; lit "func"; lit "var"; lit "let"].

(** A line that, after leading white space, begins with [private], white
    space, and one of the declaration keywords, the keyword ending at a
    word boundary. *)
Inductive top_private_line {U : UnicodeDB} : str -> Prop :=
| top_private_line_intro ws1 ws2 kw tail :
    forallb is_space ws1 = true ->
    ws2 <> [] -> forallb is_space ws2 = true ->
    In kw decl_keywords ->
    opt_word (hd_error tail) = false ->
    top_private_line (ws1 ++ lit "private" ++ ws2 ++ kw ++ tail).

(** How many values a dict holds under a key. *)
Fixpoint entries_of (V : Type) (k : str) (d : list (str * list V)) : nat :=
  match d with
  | [] => 0
  | (k', vs) :: d' => if str_eqb k k' then length vs else entries_of k d'
  end.

(** The dict after [setdefault(key m, []).append(val m)] for every [m] of
    a list, in order. *)
Definition inserted (V A : Type) (key : A -> str) (val : A -> V)
    (ms : list A) (d : list (str * list V)) : list (str * list V) :=
  fold_left (fun d m => setdefault_append (key m) (val m) d) ms d.

(** What one item of the dict adds to [errors] in the duplicate loop. *)
Definition item_report (V : Type) (pstr : str) (item : str * list V) : list str :=
  if 1 <? length (snd item) then [tagged pstr (duplicate_msg (fst item))] else [].

(* ================================================================== *)
(** ** More of what the properties are stated with *)

(** Texts that leave the openers of [stack] open, bottom to top: balanced
    stretches with those openers between them. *)
Inductive unclosed : str -> list char -> Prop :=
| unclosed_none b : balanced b -> unclosed b []
| unclosed_push p stack o b :
    unclosed p stack -> mem o OPEN = true -> balanced b ->
    unclosed (p ++ o :: b) (stack ++ [o]).

(** The opener and the closer of one pair of delimiters. *)
Inductive closes : char -> char -> Prop :=
| closes_paren : closes (chr "(") (chr ")")
| closes_brace : closes (chr "{") (chr "}")
| closes_bracket : closes (chr "[") (chr "]").

(** A closer does not match the open delimiters: none is open, or the
    innermost open one is not its opener. *)
Definition unmatched (stack : list char) (c : char) : Prop :=
  stack = [] \/ exists stack0 o, stack = stack0 ++ [o] /\ ~ closes o c.

(** One of the six delimiters. *)
Definition is_delimiter (c : char) : bool := mem c OPEN || mem c CLOSE.

(** The keywords of a type declaration. *)
Definition type_keywords : list str := [lit "struct"; lit "class"; lit "enum"].

(** [A-Za-z_] followed by any number of [A-Za-z0-9_]. *)
Definition is_identifier (name : str) : bool :=
  match name with
  | [] => false
  | c :: id => is_ident_start c && forallb is_ident_char id
  end.

(** The strings of a list, each once, in the order of their first
    occurrence. *)
Fixpoint first_occurrences (l : list str) : list str :=
  match l with
  | [] => []
  | x :: l' => x :: filter (fun y => negb (str_eqb y x)) (first_occurrences l')
  end.

(** [k in d] for a dict. *)
Definition has_key (V : Type) (d : list (str * list V)) (k : str) : bool :=
  existsb (str_eqb k) (map fst d).

(* ================================================================== *)
(** ** The changed-files checker ([scripts/changed_swift_check.py]) *)

(** The checkout the checker runs in: [repo], the parent of the directory
    of the script, and [repo / name]. *)
Class Checkout {P : PathLib} := {
  repo : Path;
  joinpath : Path -> str -> Path
}.

(** What the checker does that can be observed: the lines it prints and
    the child processes it runs, in program order. *)
Inductive wrapper_event :=
| WPrint (line : str)
| WCall (argv : list str).

Record wrapper_outcome := WOutcome { w_trace : list wrapper_event; w_exit : Z }.

Section Wrapper.
Context {P : PathLib} {C : Checkout}.

(** [paths]: [git_out] is the output of [git diff --name-only --cached],
    or [None] when running git raised, which the script turns into the
    empty output. *)
Definition staged_swift_paths (git_out : option str) : list Path :=
  let out := match git_out with Some o => o | None => [] end in
  map (joinpath repo)
      (filter (fun p => endswith p (lit ".swift")) (splitlines out)).

(** The command line of the child process for one path. *)
Definition validator_argv (p : Path) : list str :=
  [lit "python3";
   path_str (joinpath (joinpath repo (lit "scripts")) (lit "validate_swift_structure.py"));
   path_str p].

(** One turn of the loop over [paths], on the counter [errors] and the
    events so far; [call] is [subprocess.call]. *)
Definition fast_validate (call : list str -> Z)
    (acc : nat * list wrapper_event) (p : Path) : nat * list wrapper_event :=
  let '(errors, trace) := acc in
  let trace := trace ++ [WPrint (lit "Fast-validate: " ++ path_str p)] in
  let code := call (validator_argv p) in
  let trace := trace ++ [WCall (validator_argv p)] in
  (if Z.eqb code 0 then errors else errors + 1, trace).

(** The script, with the output of git and [subprocess.call] given. *)
Definition changed_swift_check (git_out : option str) (call : list str -> Z)
    : wrapper_outcome :=
  let paths := staged_swift_paths git_out in
  match paths with
  | [] => WOutcome [WPrint (lit "No staged Swift changes; skipping fast check")] 0
  | _ :: _ =>
      let '(errors, trace) := fold_left (fast_validate call) paths (0, []) in
      match errors with
      | S _ =>
          WOutcome (trace ++ [WPrint (lit "Fast changed-files check found "
                                      ++ str_of_nat errors ++ lit " issues")]) 1
      | O => WOutcome (trace ++ [WPrint (lit "Fast changed-files check OK")]) 0
      end
  end.

(** The events of checking one path. *)
Definition validation_events (p : Path) : list wrapper_event :=
  [WPrint (lit "Fast-validate: " ++ path_str p); WCall (validator_argv p)].

(** Whether the child process for a path ends with a status other than 0. *)
Definition child_fails (call : list str -> Z) (p : Path) : bool :=
  negb (Z.eqb (call (validator_argv p)) 0).
End Wrapper.

(** A checkout of a toy file system, with the repository as the working
    directory, and the one of the sample project. *)
Definition toy_checkout (files : list (str * str)) (dirs : list (str * list str))
    : @Checkout (toy_fs files dirs) :=
  @Build_Checkout (toy_fs files dirs) (lit ".") (fun _ name => name).

Definition project_checkout : @Checkout project_world :=
  toy_checkout
    [(lit "a.swift", lit "f(]"); (lit "c.txt", lit "(((");
     (lit "d/b.swift", lit "struct A struct A {")]
    [(lit "d", [lit "d/b.swift"])].

(** [subprocess.call] when [python3] runs the validator of this
    repository: the child's [sys.argv] is the command line without
    [python3], and the call returns the child's exit status, which is 1
    when the validator ends with an exception. *)
Definition validator_child {U : UnicodeDB} {P : PathLib} (argv : list str) : Z :=
  exit_code (main (skipn 1 argv)).

(* ================================================================== *)
(** ** The screenshot resizer ([resize_screenshots.py]) *)

(** Pillow, as far as the script uses it: [Image.open(path)], [img.mode],
    [img.convert(mode)], [img.resize(size, LANCZOS)] and
    [img.save(path, 'PNG', quality=95)]. *)
Class Imaging := {
  image : Type;
  img_open : str -> result image;
  img_mode : image -> str;
  img_convert : image -> str -> result image;
  img_resize : image -> nat * nat -> result image;
  img_save : image -> str -> result unit
}.

(** [s.rfind(c)]: the highest index of [c] in [s], or -1. *)
Fixpoint rfind_from (c : char) (i found : Z) (s : str) : Z :=
  match s with
  | [] => found
  | x :: s' => rfind_from c (i + 1) (if char_eqb x c then i else found) s'
  end.

Definition rfind (c : char) (s : str) : Z := rfind_from c 0 (-1) s.

(** The loop of [splitext] over the [n] characters from [filenameIndex]
    on: whether it meets a character that is no dot. *)
Fixpoint meets_no_dot (n : nat) (s : str) : bool :=
  match n, s with
  | S n', x :: s' => if char_eqb x (chr ".") then meets_no_dot n' s' else true
  | _, _ => false
  end.

(** [os.path.splitext(p)], with [/] as the separator: the extension starts
    at the last dot of the last component, unless only dots come before it
    there. *)
Definition splitext (p : str) : str * str :=
  let sepIndex := rfind (chr "/") p in
  let dotIndex := rfind (chr ".") p in
  if (sepIndex <? dotIndex)%Z
     && meets_no_dot (Z.to_nat (dotIndex - (sepIndex + 1)))
                     (skipn (Z.to_nat (sepIndex + 1)) p)
  then (firstn (Z.to_nat dotIndex) p, skipn (Z.to_nat dotIndex) p)
  else (p, []).

(** [target_sizes] *)
Definition target_sizes : list (nat * nat) := [(1244, 2688); (1284, 2778)].

(** [output_name] for a file and a size. *)
Definition output_name (png_file : str) (size : nat * nat) : str :=
  let '(name, ext) := splitext png_file in
  lit "app_store_screenshots/" ++ name ++ lit "_appstore_"
  ++ str_of_nat (fst size) ++ lit "x" ++ str_of_nat (snd size) ++ ext.

(** What the resizer does that can be observed: the lines it prints, the
    directory it makes, the images it opens and the images it saves. *)
Inductive resize_event {I : Imaging} :=
| RPrint (line : str)
| RMakedirs (path : str)
| ROpen (path : str)
| RSave (img : image) (path : str).

(** How a run of the resizer ends: its events and its exit status. *)
Record resize_outcome {I : Imaging} :=
  ROutcome { r_trace : list resize_event; r_exit : Z }.

Section Resizer.
Context {U : UnicodeDB} {I : Imaging}.

Definition resized_line (input_path : str) (target_size : nat * nat) : str :=
  [9989%N] ++ lit " Resized " ++ input_path ++ lit " to "
  ++ str_of_nat (fst target_size) ++ lit "x" ++ str_of_nat (snd target_size).

Definition error_line (input_path e : str) : str :=
  [10060%N] ++ lit " Error resizing " ++ input_path ++ lit ": " ++ e.

(** [resize_screenshot]: what it returns and what it does. *)
Definition resize_screenshot (input_path output_path : str) (target_size : nat * nat)
    : bool * list resize_event :=
  match img_open input_path with
  | Raise e => (false, [ROpen input_path; RPrint (error_line input_path e)])
  | Ok img =>
      let converted :=
        if negb (str_eqb (img_mode img) (lit "RGB"))
        then img_convert img (lit "RGB") else Ok img in
      match converted with
      | Raise e => (false, [ROpen input_path; RPrint (error_line input_path e)])
      | Ok img =>
          match img_resize img target_size with
          | Raise e => (false, [ROpen input_path; RPrint (error_line input_path e)])
          | Ok resized =>
              match img_save resized output_path with
              | Raise e =>
                  (false, [ROpen input_path; RSave resized output_path;
                           RPrint (error_line input_path e)])
              | Ok _ =>
                  (true, [ROpen input_path; RSave resized output_path;
                          RPrint (resized_line input_path target_size)])
              end
          end
      end
  end.

(** ["app_store" in png_file.lower()] *)
Definition already_processed (png_file : str) : bool :=
  contains (lit "app_store") (lower png_file).

(** The body of the loop over [png_files], on the events so far. *)
Definition resize_file (trace : list resize_event) (png_file : str)
    : list resize_event :=
  if already_processed png_file then trace
  else
    fold_left
      (fun trace size =>
         trace ++ snd (resize_screenshot png_file (output_name png_file size) size))
      target_sizes trace.

(** The script run as a program: [main()], with [png_files] what
    [glob.glob("*.png")] returns and [made] what
    [os.makedirs("app_store_screenshots", exist_ok=True)] does.  The call
    of [os.makedirs] is in no [try]: when it raises, as it does when that
    name is taken by a file, the run ends there with status 1. *)
Definition resize_main (png_files : list str) (made : result unit)
    : resize_outcome :=
  match png_files with
  | [] =>
      ROutcome
        [RPrint ([10060%N] ++ lit " No PNG files found in current directory");
         RPrint (lit "Please copy your iPhone 16 Plus screenshots to this directory first")]
        0
  | _ :: _ =>
      let trace :=
        [RPrint (lit "Found " ++ str_of_nat (length png_files) ++ lit " PNG files");
         RMakedirs (lit "app_store_screenshots")] in
      match made with
      | Raise _ => ROutcome trace 1
      | Ok _ =>
          let trace := fold_left resize_file png_files trace in
          ROutcome
            (trace
             ++ [RPrint ([10%N; 9989%N]
                         ++ lit " All screenshots resized and saved to 'app_store_screenshots/' folder");
                 RPrint (lit "You can now upload these to App Store Connect!")])
            0
      end
  end.

(** The lines a run prints, in order. *)
Fixpoint resize_printed (t : list resize_event) : list str :=
  match t with
  | [] => []
  | RPrint line :: t' => line :: resize_printed t'
  | _ :: t' => resize_printed t'
  end.

(** The paths a run opens, in order. *)
Fixpoint opened (t : list resize_event) : list str :=
  match t with
  | [] => []
  | ROpen p :: t' => p :: opened t'
  | _ :: t' => opened t'
  end.

(** The events of one file that is not passed over. *)
Definition file_events (png_file : str) : list resize_event :=
  flat_map (fun size => snd (resize_screenshot png_file (output_name png_file size) size))
           target_sizes.
End Resizer.

(** A name as [glob.glob("*.png")] gives it: no separator in it, no dot in
    front, and [.png] at the end. *)
Definition globbed_png (png_file stem : str) : Prop :=
  png_file = stem ++ lit ".png" /\
  mem (chr "/") stem = false /\
  exists c rest, stem = c :: rest /\ c <> chr ".".

(** A Pillow that can open nothing. *)
Definition broken_pillow : Imaging :=
  {| image := unit;
     img_open := fun _ => Raise (lit "cannot identify image file");
     img_mode := fun _ => lit "RGB";
     img_convert := fun i _ => Ok i;
     img_resize := fun i _ => Ok i;
     img_save := fun _ _ => Ok tt |}.

(* ================================================================== *)
(** ** Strings: basic facts *)

Unset Implicit Arguments.

Lemma char_eqb_refl c : char_eqb c c = true.
Proof. apply N.eqb_refl. Qed.

Lemma char_eqb_eq a b : char_eqb a b = true <-> a = b.
Proof. apply N.eqb_eq. Qed.

Lemma str_eqb_eq a b : str_eqb a b = true <-> a = b.
Proof.
  revert b; induction a as [|x a IH]; intros [|y b]; simpl;
    try (split; [discriminate | congruence]); try tauto.
  rewrite andb_true_iff, char_eqb_eq, IH.
  split; [intros [-> ->]; reflexivity | intros E; inversion E; auto].
Qed.

Lemma str_eqb_refl a : str_eqb a a = true.
Proof. apply str_eqb_eq; reflexivity. Qed.

Lemma str_eqb_neq a b : str_eqb a b = false <-> a <> b.
Proof.
  rewrite <- str_eqb_eq. destruct (str_eqb a b); split; congruence.
Qed.

Lemma startswith_app p b : startswith (p ++ b) p = true.
Proof.
  induction p as [|x p IH]; simpl; [reflexivity|].
  now rewrite char_eqb_refl, IH.
Qed.

Lemma contains_cons p c s : contains p s = true -> contains p (c :: s) = true.
Proof. intros H. simpl. rewrite H. apply orb_true_r. Qed.

Lemma contains_skip p a s : contains p s = true -> contains p (a ++ s) = true.
Proof. intros H. induction a as [|c a IH]; [exact H | now apply contains_cons]. Qed.

Lemma contains_here p b : contains p (p ++ b) = true.
Proof.
  destruct (p ++ b) eqn:E; simpl; rewrite <- E, startswith_app; reflexivity.
Qed.

Lemma contains_middle p a b : contains p (a ++ p ++ b) = true.
Proof. apply contains_skip, contains_here. Qed.

(* ================================================================== *)
(** ** The balance check *)

Arguments mem : simpl never.
Arguments mismatch : simpl never.

Lemma PAIR_get_spec c o :
  PAIR_get c = Some o <->
  (c = 41 /\ o = 40)%N \/ (c = 125 /\ o = 123)%N \/ (c = 93 /\ o = 91)%N.
Proof.
  unfold PAIR_get, PAIR, PAIR_get_in, char_eqb.
  change (chr ")") with 41%N; change (chr "(") with 40%N.
  change (chr "}") with 125%N; change (chr "{") with 123%N.
  change (chr "]") with 93%N; change (chr "[") with 91%N.
  destruct (N.eqb_spec c 41); [|destruct (N.eqb_spec c 125); [|destruct (N.eqb_spec c 93)]];
    split; intros H;
    try (injection H as <-); try discriminate; subst;
    try (repeat destruct H as [H|H]; destruct H; subst; congruence);
    auto 6.
Qed.

Lemma opener_in_OPEN c o : PAIR_get c = Some o -> mem o OPEN = true.
Proof.
  rewrite PAIR_get_spec. intros [ [_ ->] | [ [_ ->] | [_ ->] ] ]; reflexivity.
Qed.

Lemma closer_in_CLOSE c o :
  PAIR_get c = Some o -> mem c OPEN = false /\ mem c CLOSE = true.
Proof.
  rewrite PAIR_get_spec. intros [ [-> _] | [ [-> _] | [-> _] ] ]; split; reflexivity.
Qed.

Lemma CLOSE_not_OPEN c : mem c CLOSE = true -> mem c OPEN = false.
Proof.
  unfold mem, CLOSE, OPEN, PAIR, existsb, map, fst, snd, char_eqb.
  change (chr ")") with 41%N; change (chr "(") with 40%N.
  change (chr "}") with 125%N; change (chr "{") with 123%N.
  change (chr "]") with 93%N; change (chr "[") with 91%N.
  rewrite !orb_false_r, !orb_true_iff, !N.eqb_eq.
  intros [ -> | [ -> | -> ] ]; reflexivity.
Qed.

Lemma top_snoc stack c : top (stack ++ [c]) = Some c.
Proof.
  induction stack as [|x stack IH]; [reflexivity|].
  simpl. destruct (stack ++ [c]) eqn:E; [|exact IH].
  destruct stack; discriminate.
Qed.

Lemma match_on_top stack c o : PAIR_get c = Some o -> mismatch (stack ++ [o]) c = false.
Proof.
  intros H. unfold mismatch. now rewrite top_snoc, H, char_eqb_refl.
Qed.

(** A prefix the loop runs through without breaking off leaves the loop at
    the prefix's end, with the stack the prefix alone gives. *)
Lemma scan_app pre : forall i stack stack' post,
  scan i stack pre = (stack', None) ->
  scan i stack (pre ++ post) = scan (i + length pre) stack' post.
Proof.
  induction pre as [|c pre IH]; intros i stack stack' post H; simpl in *.
  - injection H as <-. now rewrite Nat.add_0_r.
  - rewrite Nat.add_succ_r.
    destruct (mem c OPEN); [now apply IH|].
    destruct (mem c CLOSE); [|now apply IH].
    destruct (mismatch stack c); [discriminate | now apply IH].
Qed.

(** The loop steps over a balanced stretch without touching the stack
    below it. *)
Lemma scan_balanced s : balanced s ->
  forall i stack, scan i stack s = (stack, None).
Proof.
  induction 1 as [|c s Ho Hc _ IH|o c s t Hp _ IHs _ IHt]; intros i stack.
  - reflexivity.
  - simpl. rewrite Ho, Hc. apply IH.
  - simpl. rewrite (opener_in_OPEN _ _ Hp).
    rewrite (scan_app _ _ _ _ _ (IHs (S i) (stack ++ [o]))).
    destruct (closer_in_CLOSE _ _ Hp) as [Hno Hcl].
    simpl. rewrite Hno, Hcl, (match_on_top _ _ _ Hp), removelast_last.
    apply IHt.
Qed.

Lemma balance_check_app pstr text errors :
  balance_check pstr text errors = errors ++ balance_check pstr text [].
Proof.
  unfold balance_check. destruct (scan 0 [] text) as [stack [i|]];
    destruct stack; simpl; rewrite <- ?app_assoc, ?app_nil_r; reflexivity.
Qed.

(** C1. A text whose delimiters [()], [{}], [[]] are balanced and correctly
    nested gets no balance diagnostic: the loop reaches the end of the text
    without breaking off, the stack is empty there, and the check leaves
    [errors] as it was. *)
Theorem balanced_no_diagnostic (text : str) (H : balanced text) :
  scan 0 [] text = ([], None) /\
  forall pstr errors, balance_check pstr text errors = errors.
Proof.
  pose proof (scan_balanced _ H 0 []) as E.
  split; [exact E|]. intros pstr errors.
  unfold balance_check. now rewrite E.
Qed.

Lemma balanced_no_diagnostic_witness :
  balanced (lit "f(a[0]){}") /\
  balance_check (lit "a.swift") (lit "f(a[0]){}") [] = [].
Proof.
  assert (B : balanced (lit "f(a[0]){}")).
  { apply balanced_plain; [reflexivity | reflexivity |].
    apply (@balanced_nest (chr "(") (chr ")") (lit "a[0]") (lit "{}"));
      [reflexivity | |].
    - apply balanced_plain; [reflexivity | reflexivity |].
      apply (@balanced_nest (chr "[") (chr "]") (lit "0") []);
        [reflexivity | | apply balanced_nil].
      apply balanced_plain; [reflexivity | reflexivity | apply balanced_nil].
    - apply (@balanced_nest (chr "{") (chr "}") [] []);
        [reflexivity | apply balanced_nil | apply balanced_nil]. }
  split; [exact B|].
  apply (proj2 (balanced_no_diagnostic _ B)).
Defined.

(** C2. For the text [")("] the loop breaks off at offset 0 with an empty
    stack, so the check emits exactly one diagnostic; it contains
    "mismatched bracket around offset 0", and its message is not an
    "open=" one. *)
Theorem closer_first_one_diagnostic (pstr : str) :
  scan 0 [] (lit ")(") = ([], Some 0) /\
  exists msg,
    balance_check pstr (lit ")(") [] = [tagged pstr msg] /\
    contains (lit "mismatched bracket around offset 0") (tagged pstr msg) = true /\
    contains (lit "open=") msg = false.
Proof.
  split; [reflexivity|].
  exists (mismatch_msg 0). split; [reflexivity|]. split.
  - unfold tagged. apply contains_skip. reflexivity.
  - reflexivity.
Qed.

(* ================================================================== *)
(** ** The duplicate check *)

Section Dict.
Variable V : Type.
Implicit Type d : list (str * list V).

Lemma setdefault_keys k v d x :
  In x (map fst (setdefault_append k v d)) <-> x = k \/ In x (map fst d).
Proof.
  induction d as [|[k' vs] d IH]; simpl.
  - intuition.
  - destruct (str_eqb k k') eqn:E; simpl.
    + apply str_eqb_eq in E. subst. intuition.
    + rewrite IH. intuition.
Qed.

Lemma setdefault_NoDup k v d :
  NoDup (map fst d) -> NoDup (map fst (setdefault_append k v d)).
Proof.
  induction d as [|[k' vs] d IH]; simpl; intros H.
  - constructor; [intros [] | constructor].
  - destruct (str_eqb k k') eqn:E; simpl; [exact H|].
    inversion H as [|? ? Hn Hd]; subst. constructor; [|now apply IH].
    rewrite setdefault_keys. intros [->|Hin]; [|now apply Hn].
    now rewrite str_eqb_refl in E.
Qed.

Lemma setdefault_entries_same k v d :
  entries_of k (setdefault_append k v d) = S (entries_of k d).
Proof.
  induction d as [|[k' vs] d IH]; simpl.
  - now rewrite str_eqb_refl.
  - destruct (str_eqb k k') eqn:E; simpl; rewrite E; [|exact IH].
    rewrite length_app. simpl. lia.
Qed.

Lemma setdefault_entries_other k v d x :
  x <> k -> entries_of x (setdefault_append k v d) = entries_of x d.
Proof.
  intros Hx. apply str_eqb_neq in Hx.
  induction d as [|[k' vs] d IH]; simpl.
  - now rewrite Hx.
  - destruct (str_eqb k k') eqn:E; simpl.
    + apply str_eqb_eq in E. subst. now rewrite Hx.
    + now rewrite IH.
Qed.

Variable A : Type.
Variable key : A -> str.
Variable val : A -> V.

Lemma inserted_NoDup ms : forall d,
  NoDup (map fst d) -> NoDup (map fst (inserted key val ms d)).
Proof.
  induction ms as [|m ms IH]; intros d H; simpl; [exact H|].
  apply IH, setdefault_NoDup, H.
Qed.

Lemma inserted_entries ms name : forall d,
  entries_of name (inserted key val ms d) = entries_of name d + occurrences name (map key ms).
Proof.
  unfold occurrences.
  induction ms as [|m ms IH]; intros d; simpl; [lia|].
  fold (inserted key val ms (setdefault_append (key m) (val m) d)). rewrite IH.
  destruct (str_eq_dec (key m) name) as [<-|Hne].
  - rewrite setdefault_entries_same. lia.
  - rewrite setdefault_entries_other by congruence. lia.
Qed.
End Dict.

Lemma duplicate_msg_inj pstr a b :
  tagged pstr (duplicate_msg a) = tagged pstr (duplicate_msg b) -> a = b.
Proof.
  unfold tagged, duplicate_msg. intros H.
  now repeat apply app_inv_head in H.
Qed.

Section DuplicateLoop.
Variable V : Type.
Variable pstr : str.

Lemma duplicate_loop (d : list (str * list V)) : forall errors,
  fold_left
    (fun errors item =>
       if 1 <? length (snd item)
       then errors ++ [tagged pstr (duplicate_msg (fst item))]
       else errors) d errors
  = errors ++ flat_map (item_report pstr) d.
Proof.
  induction d as [|item d IH]; intros errors; cbn [fold_left flat_map].
  - now rewrite app_nil_r.
  - rewrite IH.
    change (item_report pstr item)
      with (if 1 <? length (snd item)
            then [tagged pstr (duplicate_msg (fst item))] else []).
    destruct (1 <? length (snd item)); [|reflexivity].
    now rewrite <- app_assoc.
Qed.

Lemma absent_key_no_report name (d : list (str * list V)) :
  ~ In name (map fst d) ->
  occurrences (tagged pstr (duplicate_msg name)) (flat_map (item_report pstr) d) = 0.
Proof.
  unfold occurrences.
  induction d as [|[k vs] d IH]; simpl; intros Hn; [reflexivity|].
  rewrite count_occ_app, IH by tauto.
  unfold item_report; simpl. destruct (1 <? length vs); simpl; [|reflexivity].
  destruct (str_eq_dec _ _) as [E|_]; [|reflexivity].
  apply duplicate_msg_inj in E. tauto.
Qed.

Lemma report_count name (d : list (str * list V)) :
  NoDup (map fst d) ->
  occurrences (tagged pstr (duplicate_msg name)) (flat_map (item_report pstr) d)
  = if 1 <? entries_of name d then 1 else 0.
Proof.
  induction d as [|[k vs] d IH]; simpl; intros Hd; [reflexivity|].
  inversion Hd as [|? ? Hn Hd']; subst.
  unfold occurrences in *. rewrite count_occ_app.
  destruct (str_eqb name k) eqn:E.
  - apply str_eqb_eq in E. subst k.
    pose proof (absent_key_no_report name d Hn) as Z. unfold occurrences in Z.
    rewrite Z. unfold item_report; simpl.
    destruct (1 <? length vs); simpl; [|reflexivity].
    destruct (str_eq_dec _ _); [reflexivity | congruence].
  - rewrite IH by assumption.
    unfold item_report; simpl. destruct (1 <? length vs); simpl; [|reflexivity].
    destruct (str_eq_dec _ _) as [E'|_]; [|reflexivity].
    apply duplicate_msg_inj in E'. subst. now rewrite str_eqb_refl in E.
Qed.
End DuplicateLoop.

Lemma duplicate_check_app {U : UnicodeDB} pstr text errors :
  duplicate_check pstr text errors = errors ++ duplicate_check pstr text [].
Proof. unfold duplicate_check. now rewrite !duplicate_loop. Qed.

(** C4. A name the declaration pattern matches two or more times gets
    exactly one "Duplicate type name detected" diagnostic, however often
    it repeats, and a name matched at most once gets none. *)
Theorem one_diagnostic_per_duplicate_name {U : UnicodeDB} (pstr text name : str) :
  let matched := occurrences name (matched_names text) in
  let reported :=
    occurrences (tagged pstr (lit "Duplicate type name detected: " ++ name))
                (duplicate_check pstr text []) in
  (2 <= matched -> reported = 1) /\ (matched <= 1 -> reported = 0).
Proof.
  cbv zeta. unfold duplicate_check. rewrite duplicate_loop, app_nil_l.
  change (lit "Duplicate type name detected: " ++ name) with (duplicate_msg name).
  unfold collect_names.
  set (key := fun m : re_match => group 2 (m_caps m)).
  set (val := fun m : re_match => (group 1 (m_caps m), m_start m)).
  change (fold_left _ (finditer TYPE_RE text) [])
    with (inserted key val (finditer TYPE_RE text) []).
  rewrite report_count by (apply inserted_NoDup; constructor).
  rewrite inserted_entries.
  change (map key (finditer TYPE_RE text)) with (matched_names text).
  cbn [entries_of Nat.add].
  split; intros H; destruct (Nat.ltb_spec 1 (occurrences name (matched_names text)));
    (reflexivity || lia).
Qed.

Lemma one_diagnostic_per_duplicate_name_witness :
  let text := lit "struct Foo {} struct Foo {} enum Foo class Bar" in
  occurrences (lit "a.swift: Duplicate type name detected: Foo")
              (duplicate_check (U := ascii_db) (lit "a.swift") text []) = 1 /\
  occurrences (lit "a.swift: Duplicate type name detected: Bar")
              (duplicate_check (U := ascii_db) (lit "a.swift") text []) = 0.
Proof.
  cbv zeta. split.
  - apply (proj1 (one_diagnostic_per_duplicate_name (U := ascii_db)
             (lit "a.swift") (lit "struct Foo {} struct Foo {} enum Foo class Bar")
             (lit "Foo"))).
    vm_compute. repeat constructor.
  - apply (proj2 (one_diagnostic_per_duplicate_name (U := ascii_db)
             (lit "a.swift") (lit "struct Foo {} struct Foo {} enum Foo class Bar")
             (lit "Bar"))).
    vm_compute. repeat constructor.
Defined.

(* ================================================================== *)
(** ** The matcher finds exactly the matches *)

Lemma stepped_nil cu : stepped cu [] (rest cu) = cu.
Proof. destruct cu as [n pv r]. unfold stepped; simpl. now rewrite Nat.add_0_r. Qed.

Lemma stepped_here n pv r : stepped (Cursor n pv r) [] r = Cursor n pv r.
Proof. apply (stepped_nil (Cursor n pv r)). Qed.

Lemma stepped_cons n pv y r0 ws r :
  stepped (Cursor (S n) (Some y) r0) ws r = stepped (Cursor n pv (y :: r0)) (y :: ws) r.
Proof. unfold stepped; simpl. now rewrite Nat.add_succ_r. Qed.

Lemma prev_after_app a b pv : prev_after (a ++ b) pv = prev_after b (prev_after a pv).
Proof. unfold prev_after. apply fold_left_app. Qed.

Lemma stepped_app cu a r1 b r2 :
  stepped (stepped cu a r1) b r2 = stepped cu (a ++ b) r2.
Proof.
  unfold stepped; simpl. now rewrite length_app, Nat.add_assoc, prev_after_app.
Qed.

Lemma lit_at_spec s : forall cu cu',
  lit_at s cu = Some cu' <-> exists r, rest cu = s ++ r /\ cu' = stepped cu s r.
Proof.
  induction s as [|x s IH]; intros [n pv r0] cu'; simpl.
  - split.
    + intros [= <-]. exists r0. split; [reflexivity|].
      symmetry. apply stepped_here.
    + intros (r & -> & ->). now rewrite stepped_here.
  - destruct r0 as [|y r0].
    + split; [discriminate | intros (r & E & _); discriminate].
    + destruct (char_eqb x y) eqn:E.
      * apply char_eqb_eq in E. subst y. rewrite IH. simpl.
        split; intros (r & Hr & ->); exists r.
        -- subst r0. split; [reflexivity | apply stepped_cons].
        -- injection Hr as ->. split; [reflexivity | symmetry; apply stepped_cons].
      * split; [discriminate|]. intros (r & Hr & _). injection Hr as -> _.
        now rewrite char_eqb_refl in E.
Qed.

Section MatcherFacts.
Context {U : UnicodeDB}.
Variable A : Type.

Lemma star_at_sound p (k : cursor -> option A) r : forall n pv a,
  star_at p k n pv r = Some a ->
  exists ws r', r = ws ++ r' /\ forallb p ws = true /\
                k (stepped (Cursor n pv r) ws r') = Some a.
Proof.
  induction r as [|y r IH]; intros n pv a H; simpl in H.
  - exists [], []. rewrite stepped_here. auto.
  - assert (Stay : k (Cursor n pv (y :: r)) = Some a ->
                   exists ws r', y :: r = ws ++ r' /\ forallb p ws = true /\
                     k (stepped (Cursor n pv (y :: r)) ws r') = Some a).
    { intros Hk. exists [], (y :: r).
      rewrite stepped_here. auto. }
    destruct (p y) eqn:Hp; [|auto].
    destruct (star_at p k (S n) (Some y) r) as [a'|] eqn:E; [|auto].
    injection H as ->.
    destruct (IH _ _ _ E) as (ws & r' & -> & Hws & Hk).
    exists (y :: ws), r'. simpl. rewrite Hp, Hws, <- (stepped_cons n pv). auto.
Qed.

Lemma star_at_complete p (k : cursor -> option A) ws : forall n pv r',
  forallb p ws = true ->
  k (stepped (Cursor n pv (ws ++ r')) ws r') <> None ->
  star_at p k n pv (ws ++ r') <> None.
Proof.
  induction ws as [|y ws IH]; intros n pv r' Hws Hk.
  - simpl in Hk. rewrite stepped_here in Hk. simpl.
    destruct r' as [|z r']; simpl; [exact Hk|].
    destruct (p z); [|exact Hk].
    destruct (star_at p k (S n) (Some z) r'); [discriminate | exact Hk].
  - simpl in Hws. apply andb_true_iff in Hws as [Hy Hws]. simpl. rewrite Hy.
    cbn [app] in Hk. rewrite <- stepped_cons in Hk.
    specialize (IH (S n) (Some y) r' Hws Hk).
    destruct (star_at p k (S n) (Some y) (ws ++ r')); [discriminate | contradiction].
Qed.

Lemma rmatch_sound r : forall cu caps (k : cursor -> captures -> option A) a,
  rmatch r cu caps k = Some a ->
  exists cu' caps', matches r cu caps cu' caps' /\ k cu' caps' = Some a.
Proof.
  induction r as [|s|p|p|r1 IH1 r2 IH2|r1 IH1 r2 IH2|n r IH| |];
    intros cu caps k a H; simpl in H.
  - exists cu, caps. split; [constructor | exact H].
  - destruct (lit_at s cu) as [cu'|] eqn:E; [|discriminate].
    apply lit_at_spec in E as (r & Hr & ->).
    exists (stepped cu s r), caps. split; [now constructor | exact H].
  - destruct (rest cu) as [|y r] eqn:E; [discriminate|].
    destruct (p y) eqn:Hp; [|discriminate].
    exists (stepped cu [y] r), caps. split; [now constructor|].
    unfold stepped; simpl. now rewrite Nat.add_1_r.
  - destruct cu as [n pv r]. simpl in H.
    apply star_at_sound in H as (ws & r' & -> & Hws & Hk).
    exists (stepped (Cursor n pv (ws ++ r')) ws r'), caps.
    split; [now constructor | exact Hk].
  - apply IH1 in H as (cu1 & caps1 & M1 & H).
    apply IH2 in H as (cu2 & caps2 & M2 & H).
    exists cu2, caps2. split; [econstructor; eassumption | exact H].
  - destruct (rmatch r1 cu caps k) as [a'|] eqn:E.
    + injection H as ->. apply IH1 in E as (cu' & caps' & M & Hk).
      exists cu', caps'. split; [now apply matches_Alt_l | exact Hk].
    + apply IH2 in H as (cu' & caps' & M & Hk).
      exists cu', caps'. split; [now apply matches_Alt_r | exact Hk].
  - apply IH in H as (cu' & caps' & M & Hk).
    eexists cu', _. split; [apply matches_Group, M | exact Hk].
  - destruct (word_boundary cu) eqn:E; [|discriminate].
    exists cu, caps. split; [now constructor | exact H].
  - destruct (Nat.eqb (pos cu) 0) eqn:E; [|discriminate].
    apply Nat.eqb_eq in E. exists cu, caps. split; [now constructor | exact H].
Qed.

Lemma rmatch_complete r cu caps cu' caps' :
  matches r cu caps cu' caps' ->
  forall k : cursor -> captures -> option A,
    k cu' caps' <> None -> rmatch r cu caps k <> None.
Proof.
  induction 1 as [cu caps|s cu r caps Hr|p cu y r caps Hr Hp|p cu ws r caps Hr Hws
                 |r1 r2 cu caps cu1 caps1 cu2 caps2 _ IH1 _ IH2
                 |r1 r2 cu caps cu' caps' _ IH|r1 r2 cu caps cu' caps' _ IH
                 |n r cu caps cu' caps' _ IH|cu caps Hb|cu caps Hp];
    intros k Hk; simpl.
  - exact Hk.
  - assert (E : lit_at s cu = Some (stepped cu s r))
      by (apply lit_at_spec; eauto).
    now rewrite E.
  - rewrite Hr, Hp. unfold stepped in Hk; simpl in Hk. now rewrite Nat.add_1_r in Hk.
  - destruct cu as [n pv r0]. simpl in *. subst r0.
    now apply star_at_complete.
  - apply IH1. now apply IH2.
  - specialize (IH k Hk). destruct (rmatch r1 cu caps k); [discriminate | contradiction].
  - destruct (rmatch r1 cu caps k); [discriminate | now apply IH].
  - now apply IH.
  - now rewrite Hb.
  - rewrite Hp. exact Hk.
Qed.
End MatcherFacts.

(** A pattern matches at a cursor exactly when it has a match from there. *)
Lemma match_at_iff {U : UnicodeDB} r cu :
  match_at r cu <> None <-> exists cu' caps', matches r cu [] cu' caps'.
Proof.
  unfold match_at. split.
  - destruct (rmatch _ _ _ _) as [m|] eqn:E; [|congruence]. intros _.
    apply rmatch_sound in E as (cu' & caps' & M & _). eauto.
  - intros (cu' & caps' & M).
    apply (rmatch_complete _ _ _ _ _ _ M). discriminate.
Qed.

(* ================================================================== *)
(** ** The private-declaration check *)

Section PrivateLines.
Context {U : UnicodeDB}.

(** [^] holds at offset 0 only: a search finds a match of an anchored
    pattern at the start of the line or nowhere. *)
Lemma search_from_anchored r s : forall n pv,
  search_from (Seq Bol r) (S n) pv s = None.
Proof.
  induction s as [|c s IH]; intros n pv; simpl; [reflexivity | apply IH].
Qed.

Lemma search_anchored r line :
  search (Seq Bol r) line = match_at (Seq Bol r) (Cursor 0 None line).
Proof.
  unfold search. destruct line as [|c s]; simpl search_from.
  - now destruct (match_at _ _).
  - destruct (match_at _ _); [reflexivity | apply search_from_anchored].
Qed.

Lemma keyword_alternatives cu caps cu' caps' :
  matches (Alt (Lit (lit "struct")) (Alt (Lit (lit "class"))
          (Alt (Lit (lit "enum")) (Alt (Lit (lit "func"))
          (Alt (Lit (lit "var")) (Lit (lit "let")))))))
          cu caps cu' caps' <->
  exists kw r, In kw decl_keywords /\ rest cu = kw ++ r /\
               cu' = stepped cu kw r /\ caps' = caps.
Proof.
  split.
  - intros M.
    repeat match goal with
           | H : matches (Alt _ _) _ _ _ _ |- _ => inversion H; subst; clear H
           end;
      match goal with
      | H : matches (Lit ?s) _ _ _ _ |- _ =>
          inversion H; subst; clear H; exists s; eexists;
          split; [unfold decl_keywords; simpl; tauto | eauto]
      end.
  - intros (kw & r & Hin & Hr & -> & ->).
    unfold decl_keywords in Hin; simpl in Hin.
    destruct Hin as [<-|[<-|[<-|[<-|[<-|[<-|[]]]]]]];
      repeat (first [ now (apply matches_Lit)
                    | apply matches_Alt_l; now (apply matches_Lit)
                    | apply matches_Alt_r ]).
Qed.

Lemma keyword_boundary kw cu tail :
  In kw decl_keywords ->
  word_boundary (stepped cu kw tail) = negb (opt_word (hd_error tail)).
Proof.
  unfold decl_keywords; simpl.
  intros [<-|[<-|[<-|[<-|[<-|[<-|[]]]]]]]; unfold word_boundary; simpl;
    now destruct (opt_word (hd_error tail)).
Qed.

(** The pattern matches a line exactly when the line has the shape the
    heuristic is about. *)
Lemma is_top_private_iff line :
  is_top_private line = true <-> top_private_line line.
Proof.
  unfold is_top_private, TOP_PRIVATE_RE, Seqs, Plus. cbn [fold_right].
  rewrite search_anchored.
  match goal with
  | |- context [match_at ?r ?cu] =>
      assert (E : match_at r cu <> None <-> top_private_line line);
      [|destruct (match_at r cu); split; intros H;
        first [reflexivity | discriminate | apply E; congruence
              | apply E in H; congruence ] ]
  end.
  rewrite match_at_iff. split.
  - intros (cu' & caps' & M).
    repeat match goal with
           | H : matches (Seq _ _) _ _ _ _ |- _ => inversion H; subst; clear H
           | H : matches (Group _ _) _ _ _ _ |- _ => inversion H; subst; clear H
           | H : matches Bol _ _ _ _ |- _ => inversion H; subst; clear H
           | H : matches Eps _ _ _ _ |- _ => inversion H; subst; clear H
           | H : matches (Star _) _ _ _ _ |- _ => inversion H; subst; clear H
           | H : matches (Class _) _ _ _ _ |- _ => inversion H; subst; clear H
           | H : matches (Lit _) _ _ _ _ |- _ => inversion H; subst; clear H
           | H : matches WordB _ _ _ _ |- _ => inversion H; subst; clear H
           | H : matches (Alt _ _) _ _ _ _ |- _ =>
               apply keyword_alternatives in H; destruct H as (kw & tail & Hin & Hr & -> & ->)
           end.
    simpl in *. subst.
    match goal with
    | H : word_boundary _ = true |- _ =>
        rewrite keyword_boundary in H by assumption;
        apply negb_true_iff in H
    end.
    match goal with
    | H1 : forallb is_space ?w1 = true, H2 : is_space ?y = true,
      H3 : forallb is_space ?w2 = true |- top_private_line (?w1 ++ _) =>
        change (top_private_line (w1 ++ lit "private" ++ (y :: w2) ++ kw ++ tail));
        apply top_private_line_intro;
        [exact H1 | discriminate | simpl; now rewrite H2, H3
        | exact Hin | assumption]
    end.
  - intros [ws1 ws2 kw tail H1 Hne H2 Hin Hb].
    destruct ws2 as [|y ws2]; [contradiction|].
    simpl in H2. apply andb_true_iff in H2 as [Hy H2].
    eexists _, _.
    eapply matches_Seq; [now apply matches_Bol|].
    eapply matches_Seq; [now apply matches_Star with (ws := ws1)|].
    eapply matches_Seq; [now apply matches_Lit|].
    eapply matches_Seq.
    { eapply matches_Seq; [now apply matches_Class with (y := y)|].
      now apply matches_Star with (ws := ws2). }
    eapply matches_Seq.
    { apply matches_Group. apply keyword_alternatives.
      exists kw, tail. repeat split. exact Hin. }
    eapply matches_Seq; [|apply matches_Eps].
    apply matches_WordB. rewrite keyword_boundary by assumption. now rewrite Hb.
Qed.
End PrivateLines.

Lemma count_loop (A B : Type) (f : A -> option B) (l : list A) : forall n,
  fold_left (fun k x => match f x with Some _ => k + 1 | None => k end) l n
  = n + length (filter (fun x => match f x with Some _ => true | None => false end) l).
Proof.
  induction l as [|x l IH]; intros n; simpl; [lia|].
  rewrite IH. destruct (f x); simpl; lia.
Qed.

Lemma private_check_app {U : UnicodeDB} pstr text errors :
  private_check pstr text errors = errors ++ private_check pstr text [].
Proof.
  unfold private_check. destruct (3 <=? count_top_privates text);
    [reflexivity | now rewrite app_nil_r].
Qed.

(** C5. The heuristic counts, line by line, the lines that after leading
    white space begin with [private], white space and one of [struct],
    [class], [enum], [func], [var], [let] (ending at a word boundary), and
    appends its one diagnostic exactly when that count is at least 3; with
    a count of 2 or less it appends nothing. *)
Theorem private_threshold {U : UnicodeDB} (pstr text : str) (errors : list str) :
  let counted := filter is_top_private (splitlines text) in
  (forall line, In line counted <-> In line (splitlines text) /\ top_private_line line) /\
  count_top_privates text = length counted /\
  (3 <= length counted ->
   private_check pstr text errors =
     errors ++ [tagged pstr (lit "Many top-level private declarations (>=3). Possible premature closing brace in a View.")]) /\
  (length counted <= 2 -> private_check pstr text errors = errors).
Proof.
  cbv zeta.
  assert (C : count_top_privates text = length (filter is_top_private (splitlines text))).
  { unfold count_top_privates. now rewrite count_loop. }
  split; [|split; [exact C|]].
  - intros line. now rewrite filter_In, is_top_private_iff.
  - unfold private_check. rewrite C.
    split; intros H.
    + apply Nat.leb_le in H. now rewrite H.
    + assert (E : (3 <=? length (filter is_top_private (splitlines text))) = false)
        by (apply Nat.leb_gt; lia).
      now rewrite E.
Qed.

Lemma private_threshold_witness :
  private_check (U := ascii_db) (lit "a.swift")
    (lit "private var a" ++ [10%N] ++ lit "  private func b()" ++ [13%N; 10%N]
     ++ lit "private  let c = 1") []
  = [lit "a.swift: Many top-level private declarations (>=3). Possible premature closing brace in a View."]
  /\
  private_check (U := ascii_db) (lit "a.swift")
    (lit "private var a" ++ [10%N] ++ lit "privatefunc b()" ++ [10%N]
     ++ lit "private let c = 1") []
  = [].
Proof.
  split.
  - apply (proj1 (proj2 (proj2 (private_threshold (U := ascii_db) (lit "a.swift")
      (lit "private var a" ++ [10%N] ++ lit "  private func b()" ++ [13%N; 10%N]
       ++ lit "private  let c = 1") [])))).
    vm_compute. repeat constructor.
  - apply (proj2 (proj2 (proj2 (private_threshold (U := ascii_db) (lit "a.swift")
      (lit "private var a" ++ [10%N] ++ lit "privatefunc b()" ++ [10%N]
       ++ lit "private let c = 1") [])))).
    vm_compute. repeat constructor.
Defined.

(* ================================================================== *)
(** ** The disable marker *)

Section Marker.
Context {U : UnicodeDB}.

(** Lowering a text leaves what it makes of a prefix in front. *)
Lemma lower_from_prefix pre : forall before post,
  exists front, lower_from before (pre ++ post)
                = front ++ lower_from (before ++ pre) post.
Proof.
  induction pre as [|c pre IH]; intros before post.
  - exists []. now rewrite app_nil_r.
  - destruct (IH (before ++ [c]) post) as [front E].
    exists (lower_char before c (pre ++ post) ++ front).
    simpl. now rewrite E, <- !app_assoc.
Qed.

Lemma lower_char_small before c after :
  is_ascii c = true -> is_upper_ascii c = false -> lower_char before c after = [c].
Proof. unfold lower_char. now intros -> ->. Qed.

Lemma lower_char_capital before c y after :
  is_lower_ascii y = true -> (c + 32)%N = y -> lower_char before c after = [y].
Proof.
  unfold lower_char, is_lower_ascii, is_upper_ascii, is_ascii, in_range.
  rewrite andb_true_iff, !N.leb_le. intros [Hlo Hhi] E.
  assert (Ha : (c <? 128)%N = true) by (apply N.ltb_lt; lia).
  assert (Hu : ((65 <=? c)%N && (c <=? 90)%N) = true)
    by (apply andb_true_iff; rewrite !N.leb_le; lia).
  now rewrite Ha, Hu, E.
Qed.

(** A marker of small letters and signs comes out of [lower] as it is,
    whatever casing it had in the text. *)
Lemma lower_from_marker m marker :
  any_casing m marker ->
  Forall (fun y => is_ascii y = true /\ is_upper_ascii y = false) marker ->
  forall before post,
    lower_from before (m ++ post) = marker ++ lower_from (before ++ m) post.
Proof.
  induction 1 as [|x y m marker Hxy _ IH]; intros Hm before post.
  - now rewrite app_nil_r.
  - inversion Hm as [|? ? [Ha Hu] Hm']; subst. simpl.
    rewrite (IH Hm' (before ++ [x]) post), <- app_assoc. simpl.
    destruct Hxy as [->|[Hl E]].
    + now rewrite lower_char_small.
    + now rewrite (lower_char_capital _ _ y).
Qed.

Lemma marker_found pre m post :
  any_casing m (lit "swiftlint:disable all") ->
  contains (lit "swiftlint:disable all") (lower (pre ++ m ++ post)) = true.
Proof.
  intros Hm. unfold lower.
  destruct (lower_from_prefix pre [] (m ++ post)) as [front ->].
  rewrite (lower_from_marker _ _ Hm).
  - apply contains_middle.
  - repeat constructor.
Qed.
End Marker.

(** C6. A file whose text contains the disable marker
    ["swiftlint:disable all"], in any letter casing, gets no diagnostic of
    any kind: [check_file] goes on with [errors] as it was, whatever else
    the text holds. *)
Theorem disabled_file_no_diagnostic {U : UnicodeDB} {P : PathLib}
    (path : Path) (st : state) (pre m post : str)
    (Htext : read_text path = Ok (pre ++ m ++ post))
    (Hm : any_casing m (lit "swiftlint:disable all")) :
  exists st', check_file path st = Going st' /\ errors st' = errors st.
Proof.
  unfold check_file.
  destruct (endswith (path_name path) (lit ".swift")); cbn [negb]; [|now exists st].
  rewrite Htext, (marker_found _ _ _ Hm). eexists. split; reflexivity.
Qed.

Lemma disabled_file_no_diagnostic_witness :
  exists st',
    check_file (U := ascii_db) (P := generated_world) (lit "Gen.swift") (State [] [])
    = Going st' /\ errors st' = [].
Proof.
  apply (disabled_file_no_diagnostic (U := ascii_db) (P := generated_world)
           (lit "Gen.swift") (State [] [])
           (lit "// ") (lit "SwiftLint:Disable ALL")
           ([10%N] ++ lit "struct A { struct A ((")).
  - vm_compute. reflexivity.
  - unfold any_casing.
    repeat (apply Forall2_cons;
            [first [left; reflexivity | right; split; reflexivity]|]).
    apply Forall2_nil.
Defined.

(* ================================================================== *)
(** ** The driver *)

Section DriverFacts.
Context {U : UnicodeDB} {P : PathLib}.

Lemma printed_app t1 t2 : printed (t1 ++ t2) = printed t1 ++ printed t2.
Proof.
  induction t1 as [|e t1 IH]; [reflexivity|].
  destruct e; simpl; now rewrite IH.
Qed.

Lemma printed_accesses t : forallb is_access t = true -> printed t = [].
Proof.
  induction t as [|e t IH]; [reflexivity|].
  destruct e; simpl; intros H; try discriminate; now apply IH.
Qed.

Lemma printed_prints lines : printed (map EvPrint lines) = lines.
Proof. induction lines as [|l lines IH]; simpl; now rewrite ?IH. Qed.

Lemma reads_app t1 t2 : reads (t1 ++ t2) = reads t1 ++ reads t2.
Proof.
  induction t1 as [|e t1 IH]; [reflexivity|].
  destruct e; simpl; now rewrite IH.
Qed.

Lemma reads_prints lines : reads (map EvPrint lines) = [].
Proof. induction lines as [|l lines IH]; [reflexivity | exact IH]. Qed.

Lemma raising_file_report path : raises path = true -> file_report path = [].
Proof.
  unfold raises, has_swift_name, file_report.
  destruct (endswith (path_name path) (lit ".swift")); [|reflexivity].
  now destruct (read_text path).
Qed.

Lemma check_file_does path st :
  does (check_file path st) st (raises path) (file_report path)
       (if has_swift_name path then [path] else []).
Proof.
  unfold does, check_file, raises, file_report, has_swift_name.
  destruct (endswith (path_name path) (lit ".swift")); cbn [negb andb].
  - assert (A : forallb is_access (trace st) = true ->
                forallb is_access (trace st ++ [EvRead path]) = true)
      by (intros H; now rewrite forallb_app, H).
    destruct (read_text path) as [text|e].
    + destruct (contains _ _);
        cbn [raised state_of on_errors log errors trace];
        rewrite ?app_nil_r, ?reads_app; repeat split; auto.
      rewrite private_check_app, duplicate_check_app, balance_check_app.
      now rewrite <- !app_assoc.
    + cbn [raised state_of log errors trace].
      rewrite ?app_nil_r, ?reads_app. repeat split; auto.
  - cbn [raised state_of]. rewrite !app_nil_r. repeat split; auto.
Qed.

Lemma up_to_failure_app l1 l2 :
  up_to_failure (l1 ++ l2)
  = if existsb raises l1 then up_to_failure l1 else l1 ++ up_to_failure l2.
Proof.
  induction l1 as [|p l1 IH]; [reflexivity|].
  simpl. destruct (raises p); [reflexivity|]. simpl. rewrite IH.
  now destruct (existsb raises l1).
Qed.

Lemma up_to_failure_none l : existsb raises l = false -> up_to_failure l = l.
Proof.
  induction l as [|p l IH]; [reflexivity|]. simpl.
  destruct (raises p); [discriminate|]. simpl. intros H. now rewrite IH.
Qed.

(** A loop does what its turns do, up to the first that raises. *)
Lemma for_each_does (A : Type) (body : A -> state -> progress)
    (files : A -> list Path) :
  (forall x st, does (body x st) st (existsb raises (files x))
                     (flat_map file_report (up_to_failure (files x)))
                     (filter has_swift_name (up_to_failure (files x)))) ->
  forall items st,
    does (for_each body items st) st
         (existsb raises (flat_map files items))
         (flat_map file_report (up_to_failure (flat_map files items)))
         (filter has_swift_name (up_to_failure (flat_map files items))).
Proof.
  intros Hbody. induction items as [|x items IH]; intros st.
  - unfold does. simpl. rewrite !app_nil_r. repeat split; auto.
  - cbn [for_each flat_map]. rewrite existsb_app, up_to_failure_app.
    destruct (Hbody x st) as (Hr & He & Hd & Ha).
    destruct (body x st) as [st'|st' e]; cbn [raised state_of] in *;
      rewrite <- Hr; cbn [orb].
    + destruct (IH st') as (Hr' & He' & Hd' & Ha').
      rewrite (up_to_failure_none (files x)) in He, Hd by (now rewrite <- Hr).
      unfold does. rewrite Hr', He', Hd', He, Hd.
      rewrite flat_map_app, filter_app, <- !app_assoc. repeat split; auto.
    + unfold does. cbn [raised state_of]. repeat split; auto.
Qed.

Lemma walk_does target st :
  does (walk target st) st (existsb raises (walked target))
       (flat_map file_report (up_to_failure (walked target)))
       (filter has_swift_name (up_to_failure (walked target))).
Proof.
  unfold walk, walked. destruct (is_file target).
  - destruct (check_file_does target (log (EvIsFile target) st)) as (Hr & He & Hd & Ha).
    unfold does. rewrite Hr, He, Hd. cbn [log errors trace existsb up_to_failure].
    rewrite reads_app, orb_false_r. cbn [reads]. rewrite app_nil_r.
    repeat split.
    + destruct (raises target) eqn:R; cbn [flat_map]; rewrite app_nil_r; [|reflexivity].
      now rewrite raising_file_report.
    + destruct (raises target); cbn [filter]; now destruct (has_swift_name target).
    + intros H. apply Ha. cbn [log trace]. now rewrite forallb_app, H.
  - pose proof (for_each_does _ check_file (fun p => [p])) as L.
    assert (Hbody : forall x st0,
               does (check_file x st0) st0 (existsb raises [x])
                    (flat_map file_report (up_to_failure [x]))
                    (filter has_swift_name (up_to_failure [x]))).
    { intros x st0. destruct (check_file_does x st0) as (Hr & He & Hd & Ha).
      unfold does. rewrite Hr, He, Hd. cbn [existsb up_to_failure].
      rewrite orb_false_r. repeat split; auto.
      - destruct (raises x) eqn:R; cbn [flat_map]; rewrite app_nil_r; [|reflexivity].
        now rewrite raising_file_report.
      - destruct (raises x); cbn [filter]; now destruct (has_swift_name x). }
    specialize (L Hbody (rglob_swift target) (log (EvRglob target) (log (EvIsFile target) st))).
    assert (F : forall l : list Path, flat_map (fun p : Path => [p]) l = l).
    { induction l as [|p l IHl]; [reflexivity|]. simpl. f_equal. exact IHl. }
    rewrite (F (rglob_swift target)) in L. destruct L as (Hr & He & Hd & Ha).
    unfold does. rewrite Hr, He, Hd. cbn [log errors trace].
    rewrite !reads_app. cbn [reads]. rewrite !app_nil_r. repeat split.
    intros H. apply Ha. cbn [log trace]. now rewrite !forallb_app, H.
Qed.

Lemma short_argv (argv : list str) : (length argv <? 2) = true <-> skipn 1 argv = [].
Proof.
  destruct argv as [|prog [|a args]]; simpl; split; intros H;
    try reflexivity; discriminate.
Qed.

(** What a run with path arguments leaves behind: file-system accesses
    and, unless the check of a file raised, the report and the completion
    line. *)
Lemma main_with_args argv :
  skipn 1 argv <> [] ->
  exists accesses,
    forallb is_access accesses = true /\
    reads accesses
    = filter has_swift_name (up_to_failure (flat_map targets (skipn 1 argv))) /\
    main argv =
      if existsb raises (flat_map targets (skipn 1 argv))
      then Outcome accesses 1
      else Outcome (accesses
                    ++ map EvPrint (map structure_line
                                        (flat_map file_report (flat_map targets (skipn 1 argv)))
                                    ++ [completion_line])) 0.
Proof.
  intros Hargs. unfold main.
  destruct (length argv <? 2) eqn:E; [apply short_argv in E; contradiction|].
  pose proof (for_each_does _ (fun arg => walk (mkPath arg)) targets
                (fun x st => walk_does (mkPath x) st) (skipn 1 argv) (State [] []))
    as (Hr & He & Hd & Ha).
  destruct (for_each _ (skipn 1 argv) _) as [st|st e];
    cbn [raised state_of errors trace reads app] in *; rewrite <- Hr;
    exists (trace st); (split; [now apply Ha|]); (split; [exact Hd|]);
    [|reflexivity].
  rewrite (up_to_failure_none _ (eq_sym Hr)) in He.
  rewrite <- He, map_app, map_map. f_equal. f_equal.
  destruct (errors st); reflexivity.
Qed.

Lemma balance_check_kinds pstr text :
  Forall (diagnostic_of pstr Balance) (balance_check pstr text []).
Proof.
  unfold balance_check. destruct (scan 0 [] text) as [[|c stack] [i|]]; simpl;
    repeat constructor.
Qed.

Lemma duplicate_check_kinds pstr text :
  Forall (diagnostic_of pstr Duplicate) (duplicate_check pstr text []).
Proof.
  unfold duplicate_check. rewrite duplicate_loop, app_nil_l.
  apply Forall_flat_map, Forall_forall. intros item _.
  unfold item_report. destruct (1 <? length (snd item)); repeat constructor.
Qed.

Lemma private_check_kinds pstr text :
  Forall (diagnostic_of pstr Private) (private_check pstr text []).
Proof.
  unfold private_check. destruct (3 <=? count_top_privates text); repeat constructor.
Qed.
End DriverFacts.









(** C10. A path argument that is an existing file whose name does not end
    in [.swift] is passed over: the walk asks whether it is a file and does
    nothing else, neither reading it nor adding a diagnostic, and a run on
    it alone prints just the completion line. *)
Theorem other_file_skipped {U : UnicodeDB} {P : PathLib} (target : Path) (st : state)
    (Hfile : is_file target = true)
    (Hname : endswith (path_name target) (lit ".swift") = false) :
  walk target st = Going (State (errors st) (trace st ++ [EvIsFile target])) /\
  file_report target = [] /\
  forall prog arg, mkPath arg = target ->
    main [prog; arg] = Outcome [EvIsFile target; EvPrint completion_line] 0.
Proof.
  assert (W : forall st', walk target st'
              = Going (State (errors st') (trace st' ++ [EvIsFile target]))).
  { intros st'. unfold walk, check_file. now rewrite Hfile, Hname. }
  split; [apply W|]. split.
  - unfold file_report. now rewrite Hname.
  - intros prog arg <-. unfold main. simpl. now rewrite W.
Qed.

Lemma other_file_skipped_witness :
  main (U := ascii_db) (P := notes_world) [lit "prog"; lit "notes.txt"]
  = Outcome [EvIsFile (P := notes_world) (lit "notes.txt"); EvPrint completion_line] 0.
Proof.
  apply (proj2 (proj2 (other_file_skipped (U := ascii_db) (P := notes_world)
           (lit "notes.txt") (State [] []) eq_refl eq_refl))
         (lit "prog") (lit "notes.txt") eq_refl).
Defined.

(* ================================================================== *)
(** ** The balance check, in full *)

Lemma balanced_app a b : balanced a -> balanced b -> balanced (a ++ b).
Proof.
  induction 1 as [|c s Ho Hc _ IH|o c s t Hp Hs _ _ IHt]; intros Hb.
  - exact Hb.
  - simpl. apply balanced_plain; auto.
  - simpl. rewrite <- app_assoc. simpl. apply balanced_nest; auto.
Qed.

Lemma unclosed_app_balanced p stack b :
  unclosed p stack -> balanced b -> unclosed (p ++ b) stack.
Proof.
  intros [b0 H0|p0 st o b0 Hp Ho H0] Hb.
  - apply unclosed_none, balanced_app; assumption.
  - rewrite <- app_assoc. simpl. apply unclosed_push; auto using balanced_app.
Qed.

Lemma unclosed_open p stack o :
  unclosed p stack -> mem o OPEN = true -> unclosed (p ++ [o]) (stack ++ [o]).
Proof. intros Hp Ho. apply unclosed_push; auto using balanced_nil. Qed.

Lemma unclosed_close p stack o c :
  unclosed p (stack ++ [o]) -> PAIR_get c = Some o -> unclosed (p ++ [c]) stack.
Proof.
  intros H Hc. remember (stack ++ [o]) as st eqn:E.
  destruct H as [b Hb|p0 st0 o0 b Hp Ho Hb].
  - destruct stack; discriminate.
  - apply app_inj_tail in E as [-> ->].
    rewrite <- app_assoc. simpl. apply unclosed_app_balanced; [exact Hp|].
    apply balanced_nest; auto using balanced_nil.
Qed.

Lemma top_Some stack t : top stack = Some t -> exists stack0, stack = stack0 ++ [t].
Proof.
  induction stack as [|x stack IH]; [discriminate|].
  destruct stack as [|y stack].
  - intros [= ->]. now exists [].
  - intros H. destruct (IH H) as [stack0 E]. exists (x :: stack0).
    simpl. now rewrite <- E.
Qed.

Lemma no_mismatch stack c :
  mismatch stack c = false ->
  exists stack0 o, stack = stack0 ++ [o] /\ PAIR_get c = Some o.
Proof.
  unfold mismatch. destruct (top stack) as [t|] eqn:Ht; [|discriminate].
  destruct (PAIR_get c) as [o|]; [|discriminate].
  intros H. apply negb_false_iff, char_eqb_eq in H. subst t.
  destruct (top_Some _ _ Ht) as [stack0 ->]. eauto.
Qed.

(** What the loop has stepped over, whether it ran to the end or broke
    off: a text that leaves its stack open. *)
Lemma scan_unclosed s : forall i stack p result,
  unclosed p stack ->
  scan i stack s = result ->
  match result with
  | (stack', None) => unclosed (p ++ s) stack'
  | (stack', Some j) =>
      exists pre c post,
        s = pre ++ c :: post /\ j = i + length pre /\
        unclosed (p ++ pre) stack' /\
        mem c CLOSE = true /\ mismatch stack' c = true
  end.
Proof.
  induction s as [|c s IH]; intros i stack p result Hp <-; simpl.
  - now rewrite app_nil_r.
  - assert (Step : forall stack1,
              unclosed (p ++ [c]) stack1 ->
              match scan (S i) stack1 s with
              | (stack', None) => unclosed (p ++ c :: s) stack'
              | (stack', Some j) =>
                  exists pre c0 post,
                    c :: s = pre ++ c0 :: post /\ j = i + length pre /\
                    unclosed (p ++ pre) stack' /\
                    mem c0 CLOSE = true /\ mismatch stack' c0 = true
              end).
    { intros stack1 H1.
      specialize (IH (S i) stack1 (p ++ [c]) _ H1 eq_refl).
      destruct (scan (S i) stack1 s) as [stack' [j|]].
      - destruct IH as (pre & c0 & post & -> & -> & Hu & Hc & Hm).
        exists (c :: pre), c0, post. rewrite <- app_assoc in Hu.
        simpl. repeat split; auto; lia.
      - now rewrite <- app_assoc in IH. }
    destruct (mem c OPEN) eqn:Ho.
    + apply Step, unclosed_open; assumption.
    + destruct (mem c CLOSE) eqn:Hc.
      * destruct (mismatch stack c) eqn:Hm.
        -- exists [], c, s. rewrite app_nil_r, Nat.add_0_r. auto.
        -- destruct (no_mismatch _ _ Hm) as (stack0 & o & -> & Hpair).
           rewrite removelast_last. apply Step.
           now apply (unclosed_close _ _ o).
      * apply Step, unclosed_app_balanced; [exact Hp|].
        apply balanced_plain; auto using balanced_nil.
Qed.

Lemma unclosed_scan text stack :
  unclosed text stack -> scan 0 [] text = (stack, None).
Proof.
  induction 1 as [b Hb|p stack o b _ IH Ho Hb].
  - now apply scan_balanced.
  - rewrite (scan_app _ _ _ _ _ IH). simpl. rewrite Ho. now apply scan_balanced.
Qed.

Lemma balance_check_silent pstr text :
  balanced text -> balance_check pstr text [] = [].
Proof. intros H. unfold balance_check. now rewrite (scan_balanced _ H). Qed.

Lemma balance_check_open pstr text stack :
  unclosed text stack -> stack <> [] ->
  balance_check pstr text [] = [tagged pstr (open_msg stack)].
Proof.
  intros Hopen Hsome. unfold balance_check. rewrite (unclosed_scan _ _ Hopen).
  destruct stack; [contradiction | reflexivity].
Qed.

Lemma balance_check_break pstr pre c post stack :
  unclosed pre stack -> mem c CLOSE = true -> mismatch stack c = true ->
  balance_check pstr (pre ++ c :: post) [] =
    tagged pstr (mismatch_msg (length pre))
    :: match stack with
       | [] => []
       | _ :: _ => [tagged pstr (open_msg stack)]
       end.
Proof.
  intros Hu Hc Hm. unfold balance_check.
  rewrite (scan_app _ _ _ _ _ (unclosed_scan _ _ Hu)). simpl.
  rewrite (CLOSE_not_OPEN _ Hc), Hc, Hm. now destruct stack.
Qed.

Lemma closes_PAIR o c : closes o c <-> PAIR_get c = Some o.
Proof.
  rewrite PAIR_get_spec. split.
  - intros []; [left | right; left | right; right]; split; reflexivity.
  - intros [ [-> ->] | [ [-> ->] | [-> ->] ] ]; constructor.
Qed.

Lemma unmatched_mismatch stack c :
  (exists o, closes o c) -> unmatched stack c ->
  mem c CLOSE = true /\ mismatch stack c = true.
Proof.
  intros [o Ho] Hbad. apply closes_PAIR in Ho.
  split; [apply (closer_in_CLOSE _ _ Ho)|].
  unfold mismatch. rewrite Ho.
  destruct (top stack) as [t|] eqn:Ht; [|reflexivity].
  destruct (top_Some _ _ Ht) as [stack1 E].
  destruct Hbad as [->|(stack0 & o' & E' & Hno)]; [destruct stack1; discriminate|].
  rewrite E in E'. apply app_inj_tail in E' as [_ <-].
  apply negb_true_iff. destruct (char_eqb t o) eqn:Eq; [|reflexivity].
  apply char_eqb_eq in Eq. subst t. exfalso. apply Hno. now apply closes_PAIR.
Qed.

(** C3. At the first closer that finds no delimiter open or another
    opener than its own innermost, at offset [length pre], the check emits
    the mismatch diagnostic for that offset, looks at nothing after it (the
    result is the same for every [post]), and emits the "open="
    diagnostic with the open delimiters from the outermost to the
    innermost exactly when some are open there. *)
Theorem first_mismatch_diagnostics (pstr pre post : str) (c : char)
    (stack : list char) (errors : list str)
    (Hpre : unclosed pre stack)
    (Hcloser : exists o, closes o c)
    (Hbad : unmatched stack c) :
  balance_check pstr (pre ++ c :: post) errors =
    errors ++ [tagged pstr (lit "Unbalanced or mismatched bracket around offset "
                            ++ str_of_nat (length pre))]
           ++ match stack with
              | [] => []
              | _ :: _ => [tagged pstr (lit "Unbalanced brackets, open=" ++ stack)]
              end.
Proof.
  destruct (unmatched_mismatch stack c Hcloser Hbad) as [Hc Hm].
  rewrite balance_check_app.
  rewrite (balance_check_break pstr pre c post stack Hpre Hc Hm).
  reflexivity.
Qed.

Lemma first_mismatch_diagnostics_witness :
  balance_check (lit "a.swift") (lit "f(" ++ chr "]" :: lit "x)") [] =
    [lit "a.swift: Unbalanced or mismatched bracket around offset 2";
     lit "a.swift: Unbalanced brackets, open=("].
Proof.
  apply (first_mismatch_diagnostics (lit "a.swift") (lit "f(") (lit "x)")
           (chr "]") (lit "(") []).
  - apply (@unclosed_push (lit "f") [] (chr "(") []).
    + apply unclosed_none.
      apply balanced_plain; [reflexivity | reflexivity | apply balanced_nil].
    + reflexivity.
    + apply balanced_nil.
  - exists (chr "["). constructor.
  - right. exists [], (chr "("). split; [reflexivity|].
    intros H. apply closes_PAIR in H. vm_compute in H. discriminate H.
Defined.

(** X1. The balance check stays silent on exactly the balanced texts: a
    text gets no balance diagnostic if and only if its delimiters are
    balanced and correctly nested. *)
Theorem silent_iff_balanced (pstr text : str) :
  balance_check pstr text [] = [] <-> balanced text.
Proof.
  split.
  - unfold balance_check. intros H.
    pose proof (scan_unclosed text 0 [] [] _ (unclosed_none balanced_nil) eq_refl) as S.
    destruct (scan 0 [] text) as [stack [j|]].
    + destruct stack; discriminate.
    + destruct stack; [|discriminate].
      simpl in S. inversion S as [b Hb|p st o b _ _ _ E1 E2]; [assumption|].
      destruct st; discriminate.
  - intros H. unfold balance_check. now rewrite (scan_balanced _ H).
Qed.

(** X2. Openers left open at the end of the text, and nothing else wrong:
    the check emits exactly one diagnostic, "Unbalanced brackets, open="
    with just those openers from the outermost to the innermost. *)
Theorem unclosed_openers_reported (pstr text : str) (stack : list char)
    (errors : list str)
    (Hopen : unclosed text stack) (Hsome : stack <> []) :
  balance_check pstr text errors =
    errors ++ [tagged pstr (lit "Unbalanced brackets, open=" ++ stack)].
Proof.
  unfold balance_check. rewrite (unclosed_scan _ _ Hopen).
  destruct stack; [contradiction | reflexivity].
Qed.

Lemma unclosed_openers_reported_witness :
  balance_check (lit "a.swift") (lit "func f() {") []
  = [lit "a.swift: Unbalanced brackets, open={"].
Proof.
  apply (unclosed_openers_reported (lit "a.swift") (lit "func f() {") (lit "{") []).
  - apply (@unclosed_push (lit "func f() ") [] (chr "{") []).
    + apply unclosed_none.
      repeat (apply balanced_plain; [reflexivity | reflexivity |]).
      apply (@balanced_nest (chr "(") (chr ")") [] (lit " ")); [reflexivity | apply balanced_nil |].
      apply balanced_plain; [reflexivity | reflexivity | apply balanced_nil].
    + reflexivity.
    + apply balanced_nil.
  - discriminate.
Defined.


Lemma scan_delimiters_only text : forall i j stack,
  fst (scan i stack text) = fst (scan j stack (filter is_delimiter text)) /\
  (snd (scan i stack text) = None <->
   snd (scan j stack (filter is_delimiter text)) = None).
Proof.
  induction text as [|c text IH]; intros i j stack; [simpl; tauto|].
  cbn [filter scan]. unfold is_delimiter.
  destruct (mem c OPEN) eqn:Ho; cbn [orb].
  - cbn [scan]. rewrite Ho. apply IH.
  - destruct (mem c CLOSE) eqn:Hc.
    + cbn [scan]. rewrite Ho, Hc.
      destruct (mismatch stack c); [|apply IH].
      simpl. split; [reflexivity | split; discriminate].
    + apply IH.
Qed.

(** X15. Only the delimiters count for the balance check: with every
    other character taken out of the text, the loop ends with the same
    stack, and it breaks off at a mismatch in the one text exactly when it
    does in the other; so the check gives the same diagnostics but for the
    offset in the mismatch message. *)
Theorem balance_sees_delimiters_only (pstr text : str) :
  fst (scan 0 [] text) = fst (scan 0 [] (filter is_delimiter text)) /\
  (snd (scan 0 [] text) = None <->
   snd (scan 0 [] (filter is_delimiter text)) = None) /\
  length (balance_check pstr text [])
  = length (balance_check pstr (filter is_delimiter text) []).
Proof.
  destruct (scan_delimiters_only text 0 0 []) as [Hs Hb].
  split; [exact Hs|]. split; [exact Hb|].
  unfold balance_check.
  destruct (scan 0 [] text) as [s1 b1], (scan 0 [] (filter is_delimiter text)) as [s2 b2].
  simpl in Hs, Hb. subst s2.
  destruct b1 as [i1|], b2 as [i2|]; try reflexivity.
  - destruct s1; reflexivity.
  - destruct Hb as [_ Hb]. specialize (Hb eq_refl). discriminate.
  - destruct Hb as [Hb _]. specialize (Hb eq_refl). discriminate.
Qed.

(* ================================================================== *)
(** ** The declaration pattern and the duplicate check, in full *)

Section Declarations.
Context {U : UnicodeDB}.

(** Every match [finditer] yields is a match of the pattern at some
    position of the subject. *)
Lemma finditer_from_In r s : forall skip n pv m,
  In m (finditer_from r skip n pv s) ->
  exists pre post, s = pre ++ post /\
    match_at r (Cursor (n + length pre) (prev_after pre pv) post) = Some m.
Proof.
  induction s as [|c s IH]; intros skip n pv m; simpl.
  - destruct skip; [|intros []].
    destruct (match_at r (Cursor n pv [])) as [m0|] eqn:E; [|intros []].
    intros [<-|[]]. exists [], []. simpl. now rewrite Nat.add_0_r.
  - assert (Later : forall k, In m (finditer_from r k (S n) (Some c) s) ->
              exists pre post, c :: s = pre ++ post /\
                match_at r (Cursor (n + length pre) (prev_after pre pv) post) = Some m).
    { intros k H. destruct (IH _ _ _ _ H) as (pre & post & -> & E).
      exists (c :: pre), post. simpl. now rewrite Nat.add_succ_r. }
    destruct skip as [|k]; [|apply Later].
    destruct (match_at r (Cursor n pv (c :: s))) as [m0|] eqn:E; [|apply Later].
    intros [<-|H]; [|now apply (Later _ H)].
    exists [], (c :: s). simpl. now rewrite Nat.add_0_r.
Qed.

Lemma match_at_matches r cu m :
  match_at r cu = Some m ->
  exists cu' caps', matches r cu [] cu' caps' /\ m = Match (pos cu) (pos cu') caps'.
Proof.
  unfold match_at. intros H.
  apply rmatch_sound in H as (cu' & caps' & M & [= <-]). eauto.
Qed.

Lemma type_keyword_alternatives cu caps cu' caps' :
  matches (Alt (Lit (lit "struct")) (Alt (Lit (lit "class")) (Lit (lit "enum"))))
          cu caps cu' caps' ->
  exists kw r, In kw type_keywords /\ rest cu = kw ++ r /\
               cu' = stepped cu kw r /\ caps' = caps.
Proof.
  intros M.
  repeat match goal with
         | H : matches (Alt _ _) _ _ _ _ |- _ => inversion H; subst; clear H
         end;
    match goal with
    | H : matches (Lit ?s) _ _ _ _ |- _ =>
        inversion H; subst; clear H; exists s; eexists;
        split; [unfold type_keywords; simpl; tauto | eauto]
    end.
Qed.

Lemma firstn_stepped n (s r : str) : firstn (n + length s - n) (s ++ r) = s.
Proof.
  replace (n + length s - n) with (length s + 0) by lia.
  rewrite firstn_app_2. simpl. apply app_nil_r.
Qed.

Lemma ident_char_word c : is_ident_char c = true -> is_word c = true.
Proof.
  intros H. unfold is_word.
  assert (A : is_ascii c = true); [|now rewrite A].
  unfold is_ident_char, is_ident_start, is_upper_ascii, is_lower_ascii,
    is_digit_ascii, in_range, char_eqb, is_ascii in *.
  apply N.ltb_lt.
  repeat (apply orb_true_iff in H as [H|H]);
    try (apply andb_true_iff in H as [_ H]; apply N.leb_le in H; lia).
  apply N.eqb_eq in H. lia.
Qed.

Lemma prev_after_last (s : str) c pv : prev_after (s ++ [c]) pv = Some c.
Proof. unfold prev_after. now rewrite fold_left_app. Qed.

Lemma identifier_ends_in_word c id pv :
  is_ident_start c = true -> forallb is_ident_char id = true ->
  opt_word (prev_after (c :: id) pv) = true.
Proof.
  intros Hc Hid.
  destruct (@exists_last _ (c :: id)) as (s & z & E); [discriminate|].
  rewrite E, prev_after_last. simpl. apply ident_char_word.
  assert (Hall : forallb is_ident_char (c :: id) = true).
  { simpl. rewrite Hid. unfold is_ident_char. now rewrite Hc. }
  rewrite E, forallb_app in Hall. apply andb_true_iff in Hall as [_ Hz].
  simpl in Hz. now rewrite andb_true_r in Hz.
Qed.

Lemma type_keyword_starts_with_word kw r :
  In kw type_keywords -> opt_word (hd_error (kw ++ r)) = true.
Proof.
  unfold type_keywords; simpl. intros [<-|[<-|[<-|[]]]]; reflexivity.
Qed.

(** What a match of the declaration pattern at a cursor is. *)
Lemma type_match_shape cu m :
  match_at TYPE_RE cu = Some m ->
  exists kw ws name tail,
    rest cu = kw ++ ws ++ name ++ tail /\
    m_start m = pos cu /\
    m_end m = pos cu + length (kw ++ ws ++ name) /\
    group 1 (m_caps m) = kw /\ group 2 (m_caps m) = name /\
    In kw type_keywords /\
    ws <> [] /\ forallb is_space ws = true /\
    is_identifier name = true /\
    opt_word (prev cu) = false /\ opt_word (hd_error tail) = false.
Proof.
  destruct cu as [n pv r0].
  intros H. apply match_at_matches in H as (cu' & caps' & M & ->).
  unfold TYPE_RE, Seqs, Plus in M. cbn [fold_right] in M.
  repeat match goal with
         | H : matches (Seq _ _) _ _ _ _ |- _ => inversion H; subst; clear H
         | H : matches (Group _ _) _ _ _ _ |- _ => inversion H; subst; clear H
         | H : matches Eps _ _ _ _ |- _ => inversion H; subst; clear H
         | H : matches (Star _) _ _ _ _ |- _ => inversion H; subst; clear H
         | H : matches (Class _) _ _ _ _ |- _ => inversion H; subst; clear H
         | H : matches WordB _ _ _ _ |- _ => inversion H; subst; clear H
         | H : matches (Alt _ _) _ _ _ _ |- _ =>
             apply type_keyword_alternatives in H;
             destruct H as (kw & tail & Hin & Hr & -> & ->)
         end.
  cbn [rest pos prev stepped] in *. subst.
  match goal with
  | Hy : is_space ?y = true, Hws : forallb is_space ?ws = true,
    Hc : is_ident_start ?c = true, Hid : forallb is_ident_char ?id = true
    |- _ =>
      match goal with
      | |- context [Match _ _ ((2, firstn _ (c :: id ++ ?t)) :: _)] =>
          exists kw, (y :: ws), (c :: id), t
      end
  end.
  cbn [m_start m_end m_caps group Nat.eqb].
  repeat match goal with
         | H : word_boundary _ = true |- _ =>
             unfold word_boundary in H; cbn [prev rest] in H
         end.
  cbn [stepped prev rest] in *.
  repeat match goal with |- _ /\ _ => split end.
  - reflexivity.
  - reflexivity.
  - rewrite !length_app. simpl. lia.
  - apply firstn_stepped.
  - match goal with
    | |- firstn ?k (?c :: ?id ++ ?t) = _ =>
        replace k with (length (c :: id) + 0) by (simpl; lia);
        change (c :: id ++ t) with ((c :: id) ++ t);
        rewrite firstn_app_2; simpl; now rewrite app_nil_r
    end.
  - assumption.
  - discriminate.
  - simpl. match goal with Hy : is_space _ = true |- _ => now rewrite Hy end.
  - simpl. match goal with Hc : is_ident_start _ = true |- _ => now rewrite Hc end.
  - match goal with
    | H : xorb (opt_word pv) _ = true |- _ =>
        rewrite type_keyword_starts_with_word in H by assumption;
        now destruct (opt_word pv)
    end.
  - match goal with
    | H : xorb (opt_word (prev_after ?id (prev_after [?c] _))) ?b = true |- ?b = false =>
        change (prev_after id (prev_after [c] ?x)) with (prev_after (c :: id) x) in H;
        rewrite identifier_ends_in_word in H by assumption;
        now destruct b
    end.
Qed.
End Declarations.

(** X4. Every match the duplicate check collects is a declaration in the
    text: one of the keywords [struct], [class], [enum] that does not
    continue a word, white space, and an identifier that ends at a word
    boundary; groups 1 and 2 are the keyword and the identifier, and the
    match runs from the keyword's offset to the identifier's end. *)
Theorem declaration_match_shape {U : UnicodeDB} (text : str) (m : re_match)
    (Hm : In m (finditer TYPE_RE text)) :
  exists pre ws tail,
    text = pre ++ group 1 (m_caps m) ++ ws ++ group 2 (m_caps m) ++ tail /\
    m_start m = length pre /\
    m_end m = length (pre ++ group 1 (m_caps m) ++ ws ++ group 2 (m_caps m)) /\
    In (group 1 (m_caps m)) type_keywords /\
    ws <> [] /\ forallb is_space ws = true /\
    is_identifier (group 2 (m_caps m)) = true /\
    opt_word (prev_after pre None) = false /\
    opt_word (hd_error tail) = false.
Proof.
  apply finditer_from_In in Hm as (pre & post & -> & E).
  apply type_match_shape in E
    as (kw & ws & name & tail & Hr & Hs & He & <- & <- & Hk & Hw & Hsp & Hid & Hp & Ht).
  cbn [rest pos prev] in *. subst post.
  exists pre, ws, tail. repeat match goal with |- _ /\ _ => split end; auto.
  rewrite He, !length_app. lia.
Qed.

Lemma declaration_match_shape_witness :
  exists pre ws tail,
    lit "final class  Foo: Bar {}" = pre ++ lit "class" ++ ws ++ lit "Foo" ++ tail /\
    length pre = 6.
Proof.
  destruct (declaration_match_shape (U := ascii_db) (lit "final class  Foo: Bar {}")
              (Match 6 16 [(2, lit "Foo"); (1, lit "class")]))
    as (pre & ws & tail & E & Hs & _).
  - vm_compute. left. reflexivity.
  - exists pre, ws, tail. split; [exact E | symmetry; exact Hs].
Defined.

(* ------------------------------------------------------------------ *)

Section DictOrder.
Variable V : Type.

Lemma setdefault_key_list k (v : V) d :
  map fst (setdefault_append k v d)
  = if has_key d k then map fst d else map fst d ++ [k].
Proof.
  unfold has_key. induction d as [|[k' vs] d IH]; simpl; [reflexivity|].
  destruct (str_eqb k k'); simpl; [reflexivity|].
  rewrite IH. now destruct (existsb _ _).
Qed.

Lemma has_key_setdefault k (v : V) d x :
  has_key (setdefault_append k v d) x = has_key d x || str_eqb x k.
Proof.
  unfold has_key at 1. rewrite setdefault_key_list.
  destruct (has_key d k) eqn:E.
  - fold (has_key d x). destruct (str_eqb x k) eqn:Ex; [|now rewrite orb_false_r].
    apply str_eqb_eq in Ex. subst x. now rewrite E.
  - rewrite existsb_app. simpl. now rewrite orb_false_r.
Qed.

Lemma filter_both (A : Type) (f g : A -> bool) l :
  filter f (filter g l) = filter (fun x => g x && f x) l.
Proof.
  induction l as [|x l IH]; simpl; [reflexivity|].
  destruct (g x); simpl; rewrite IH; reflexivity.
Qed.

Variable A : Type.
Variable key : A -> str.
Variable val : A -> V.

(** The keys of the dict are the names in the order they first occur. *)
Lemma inserted_key_list ms : forall d,
  map fst (inserted key val ms d)
  = map fst d ++ filter (fun k => negb (has_key d k)) (first_occurrences (map key ms)).
Proof.
  induction ms as [|m ms IH]; intros d.
  - simpl. now rewrite app_nil_r.
  - cbn [inserted fold_left map first_occurrences filter].
    fold (inserted key val ms (setdefault_append (key m) (val m) d)).
    rewrite IH, setdefault_key_list.
    assert (T : filter (fun k => negb (has_key (setdefault_append (key m) (val m) d) k))
                       (first_occurrences (map key ms))
                = filter (fun k => negb (has_key d k))
                         (filter (fun y => negb (str_eqb y (key m)))
                                 (first_occurrences (map key ms)))).
    { rewrite filter_both. apply filter_ext. intros k.
      rewrite has_key_setdefault, negb_orb. apply andb_comm. }
    rewrite T. destruct (has_key d (key m)); cbn [negb]; [reflexivity|].
    now rewrite <- app_assoc.
Qed.

Lemma entries_of_item (d : list (str * list V)) :
  NoDup (map fst d) ->
  forall item, In item d -> entries_of (fst item) d = length (snd item).
Proof.
  induction d as [|[k vs] d IH]; intros Hd item Hin; [destruct Hin|].
  inversion Hd as [|? ? Hn Hd']; subst. simpl.
  destruct Hin as [<-|Hin]; simpl.
  - now rewrite str_eqb_refl.
  - destruct (str_eqb (fst item) k) eqn:E; [|now apply IH].
    apply str_eqb_eq in E. subst k. exfalso. apply Hn.
    apply in_map_iff. eauto.
Qed.

Lemma report_by_keys pstr (d : list (str * list V)) (f : str -> nat) :
  (forall item, In item d -> f (fst item) = length (snd item)) ->
  flat_map (item_report pstr) d
  = map (fun name => tagged pstr (duplicate_msg name))
        (filter (fun name => 1 <? f name) (map fst d)).
Proof.
  induction d as [|item d IH]; intros H; [reflexivity|].
  cbn [flat_map map filter]. rewrite IH by (intros; apply H; now right).
  rewrite (H item (or_introl eq_refl)). unfold item_report.
  now destruct (1 <? length (snd item)).
Qed.
End DictOrder.

(** X5. The duplicate check reports the names that are matched more than
    once, each once, in the order in which the names first occur in the
    text, and nothing else. *)
Theorem duplicates_in_order_of_first_occurrence {U : UnicodeDB} (pstr text : str)
    (errors : list str) :
  duplicate_check pstr text errors =
    errors ++ map (fun name => tagged pstr (lit "Duplicate type name detected: " ++ name))
                  (filter (fun name => 1 <? occurrences name (matched_names text))
                          (first_occurrences (matched_names text))).
Proof.
  unfold duplicate_check. rewrite duplicate_loop. f_equal.
  unfold collect_names.
  set (key := fun m : re_match => group 2 (m_caps m)).
  set (val := fun m : re_match => (group 1 (m_caps m), m_start m)).
  change (fold_left _ (finditer TYPE_RE text) [])
    with (inserted key val (finditer TYPE_RE text) []).
  assert (Hd : NoDup (map fst (inserted key val (finditer TYPE_RE text) [])))
    by (apply inserted_NoDup; constructor).
  rewrite (report_by_keys _ pstr _ (fun name => occurrences name (matched_names text))).
  - rewrite inserted_key_list. cbn [map app].
    assert (T : forall l : list str,
              filter (fun k => negb (has_key (@nil (str * list (str * nat))) k)) l = l)
      by (induction l as [|a l IH]; [reflexivity|]; cbn [filter];
          change (has_key (@nil (str * list (str * nat))) a) with false;
          cbn [negb]; now rewrite IH).
    rewrite T. reflexivity.
  - intros item Hin. rewrite <- (entries_of_item _ _ Hd item Hin).
    now rewrite inserted_entries.
Qed.

(* ================================================================== *)
(** ** What a run reads, and what it passes over *)


(** X7. A path argument that is no file and under which [rglob] finds
    nothing, such as a path that does not exist or a directory without
    Swift files, is accepted in silence: the walk looks and reads nothing,
    no diagnostic is added, and a run on it alone prints the completion
    line and ends with status 0. *)
Theorem empty_target_silent {U : UnicodeDB} {P : PathLib} (target : Path) (st : state)
    (Hnot : is_file target = false) (Hnone : rglob_swift target = []) :
  walk target st
  = Going (State (errors st) (trace st ++ [EvIsFile target; EvRglob target])) /\
  forall prog arg, mkPath arg = target ->
    main [prog; arg]
    = Outcome [EvIsFile target; EvRglob target; EvPrint completion_line] 0.
Proof.
  assert (W : forall st', walk target st'
              = Going (State (errors st')
                             (trace st' ++ [EvIsFile target; EvRglob target]))).
  { intros st'. unfold walk. rewrite Hnot, Hnone. unfold log.
    cbn [for_each errors trace]. f_equal. f_equal. rewrite <- app_assoc. reflexivity. }
  split; [apply W|].
  intros prog arg <-. unfold main. simpl. now rewrite W.
Qed.

Lemma empty_target_silent_witness :
  main (U := ascii_db) (P := notes_world) [lit "prog"; lit "Sources/Missing"]
  = Outcome [EvIsFile (P := notes_world) (lit "Sources/Missing");
             EvRglob (P := notes_world) (lit "Sources/Missing");
             EvPrint completion_line] 0.
Proof.
  apply (proj2 (empty_target_silent (U := ascii_db) (P := notes_world)
           (lit "Sources/Missing") (State [] []) eq_refl eq_refl)
         (lit "prog") (lit "Sources/Missing") eq_refl).
Defined.

(* ================================================================== *)
(** ** The private-declaration pattern and indentation *)

Lemma top_private_indent {U : UnicodeDB} ws line :
  forallb is_space ws = true ->
  (top_private_line (ws ++ line) <-> top_private_line line).
Proof.
  intros Hws. split.
  - intros H. remember (ws ++ line) as full eqn:E.
    destruct H as [ws1 ws2 kw tail H1 Hne H2 Hin Hb].
    apply app_eq_app in E as [l [[-> ->]|[-> E]]].
    + rewrite forallb_app in H1. apply andb_true_iff in H1 as [_ Hl].
      now apply top_private_line_intro.
    + destruct l as [|x l].
      * change (lit "private" ++ ws2 ++ kw ++ tail = line) in E. subst line.
        now apply (@top_private_line_intro _ [] ws2 kw tail).
      * exfalso. injection E as <- _.
        rewrite forallb_app in Hws. apply andb_true_iff in Hws as [_ Hx].
        simpl in Hx. discriminate Hx.
  - intros [ws1 ws2 kw tail H1 Hne H2 Hin Hb].
    rewrite app_assoc. apply top_private_line_intro; auto.
    rewrite forallb_app. now rewrite Hws, H1.
Qed.

(** X8. Indentation does not matter to the private-declaration check: a
    line counts exactly when it counts with white space put in front of
    it, so a private declaration nested at any depth is counted like one
    at the top level. *)
Theorem private_line_any_indentation {U : UnicodeDB} (ws line : str)
    (Hws : forallb is_space ws = true) :
  is_top_private (ws ++ line) = is_top_private line.
Proof.
  pose proof (is_top_private_iff (ws ++ line)) as A.
  pose proof (is_top_private_iff line) as B.
  pose proof (top_private_indent ws line Hws) as C.
  destruct (is_top_private (ws ++ line)), (is_top_private line);
    try reflexivity; exfalso.
  - assert (false = true) by (apply B, C, A; reflexivity). discriminate.
  - assert (false = true) by (apply A, C, B; reflexivity). discriminate.
Qed.

Lemma private_line_any_indentation_witness :
  is_top_private (U := ascii_db) (lit "        " ++ lit "private func helper() {")
  = is_top_private (U := ascii_db) (lit "private func helper() {").
Proof.
  apply (private_line_any_indentation (U := ascii_db) (lit "        ")
           (lit "private func helper() {")).
  reflexivity.
Defined.

(* ================================================================== *)
(** ** The changed-files checker *)

Section WrapperFacts.
Context {P : PathLib} {C : Checkout}.

Lemma fast_validate_loop call paths : forall errors trace,
  fold_left (fast_validate call) paths (errors, trace)
  = (errors + length (filter (child_fails call) paths),
     trace ++ flat_map validation_events paths).
Proof.
  induction paths as [|p paths IH]; intros errors trace; simpl.
  - now rewrite Nat.add_0_r, app_nil_r.
  - rewrite IH. unfold child_fails at 2.
    destruct (Z.eqb (call (validator_argv p)) 0); simpl;
      rewrite <- !app_assoc; simpl; f_equal; lia.
Qed.

(** X9. The checker runs the validator once for every staged name that
    ends in [.swift], in the order git lists them and whatever the earlier
    runs returned, announcing each run first; it counts the runs that end
    with a status other than 0, and it exits with status 1 and the count
    in its last line when there are any, with status 0 and "OK" when there
    are none.  With no such name, also when git could not be run, it runs
    nothing and exits with status 0. *)
Theorem changed_swift_check_counts (git_out : option str) (call : list str -> Z) :
  let paths := staged_swift_paths git_out in
  let failed := length (filter (child_fails call) paths) in
  changed_swift_check git_out call =
    match paths, failed with
    | [], _ =>
        WOutcome [WPrint (lit "No staged Swift changes; skipping fast check")] 0
    | _ :: _, O =>
        WOutcome (flat_map validation_events paths
                  ++ [WPrint (lit "Fast changed-files check OK")]) 0
    | _ :: _, S _ =>
        WOutcome (flat_map validation_events paths
                  ++ [WPrint (lit "Fast changed-files check found "
                              ++ str_of_nat failed ++ lit " issues")]) 1
    end.
Proof.
  cbv zeta. unfold changed_swift_check.
  destruct (staged_swift_paths git_out) as [|p paths] eqn:E; [reflexivity|].
  rewrite fast_validate_loop. cbn [Nat.add app].
  now destruct (length (filter (child_fails call) (p :: paths))).
Qed.
End WrapperFacts.



(* ================================================================== *)
(** ** The screenshot resizer *)

Lemma rfind_from_absent c s : forall i found,
  mem c s = false -> rfind_from c i found s = found.
Proof.
  unfold mem. induction s as [|x s IH]; intros i found H; simpl in *; [reflexivity|].
  apply orb_false_iff in H as [Hx Hs].
  unfold char_eqb in *. rewrite N.eqb_sym, Hx. now apply IH.
Qed.

Lemma rfind_from_app c a b : forall i found,
  rfind_from c i found (a ++ b)
  = rfind_from c (i + Z.of_nat (length a)) (rfind_from c i found a) b.
Proof.
  induction a as [|x a IH]; intros i found.
  - simpl. now rewrite Z.add_0_r.
  - cbn [app rfind_from length]. rewrite IH. f_equal. lia.
Qed.

Lemma app_same_length (A : Type) (a a' b b' : list A) :
  length b = length b' -> a ++ b = a' ++ b' -> a = a' /\ b = b'.
Proof.
  intros Hl H.
  assert (La : length a = length a').
  { apply (f_equal (@length A)) in H. rewrite !length_app in H. lia. }
  revert a' La H. induction a as [|x a IH]; intros [|y a'] La H;
    try discriminate; [now split|].
  injection H as -> H. injection La as La.
  destruct (IH a' La H) as [-> ->]. now split.
Qed.

(** The name and the extension of a globbed file. *)
Lemma splitext_globbed png_file stem :
  globbed_png png_file stem -> splitext png_file = (stem, lit ".png").
Proof.
  intros (-> & Hsep & c & rest & -> & Hc).
  unfold splitext, rfind. rewrite !rfind_from_app.
  rewrite (rfind_from_absent (chr "/") (c :: rest)) by exact Hsep.
  assert (Hs : rfind_from (chr "/") (0 + Z.of_nat (length (c :: rest))) (-1) (lit ".png")
               = (-1)%Z) by reflexivity.
  assert (Hd : forall found,
             rfind_from (chr ".") (0 + Z.of_nat (length (c :: rest))) found (lit ".png")
             = Z.of_nat (length (c :: rest))) by (intros; reflexivity).
  rewrite Hs, Hd.
  assert (Hlt : (-1 <? Z.of_nat (length (c :: rest)))%Z = true)
    by (apply Z.ltb_lt; lia).
  rewrite Hlt.
  replace (Z.to_nat (Z.of_nat (length (c :: rest)) - (-1 + 1)))
    with (S (length rest)) by (simpl length; lia).
  change (Z.to_nat (-1 + 1)) with 0. cbn [skipn app meets_no_dot].
  assert (Hne : char_eqb c (chr ".") = false).
  { unfold char_eqb. now apply N.eqb_neq. }
  rewrite Hne. cbn [andb]. rewrite Nat2Z.id.
  change (c :: rest ++ lit ".png") with ((c :: rest) ++ lit ".png").
  rewrite firstn_app, skipn_app, firstn_all, skipn_all, Nat.sub_diag.
  simpl. now rewrite app_nil_r.
Qed.

(** X11. For a file as the glob gives it, [stem.png] with no dot in front,
    the output for a size is
    [app_store_screenshots/<stem>_appstore_<width>x<height>.png]. *)
Theorem output_name_shape (png_file stem : str) (size : nat * nat)
    (Hglob : globbed_png png_file stem) :
  output_name png_file size =
    lit "app_store_screenshots/" ++ stem ++ lit "_appstore_"
    ++ str_of_nat (fst size) ++ lit "x" ++ str_of_nat (snd size) ++ lit ".png".
Proof. unfold output_name. now rewrite (splitext_globbed _ _ Hglob). Qed.

Lemma output_name_shape_witness :
  output_name (lit "Home Screen.v2.png") (1284, 2778)
  = lit "app_store_screenshots/Home Screen.v2_appstore_1284x2778.png".
Proof.
  apply (output_name_shape (lit "Home Screen.v2.png") (lit "Home Screen.v2") (1284, 2778)).
  split; [reflexivity|]. split; [reflexivity|].
  exists (chr "H"), (lit "ome Screen.v2"). split; [reflexivity | discriminate].
Defined.

(** X12. No two resizes write to the same file: for files as the glob
    gives them and sizes of [target_sizes], two outputs are the same path
    only for the same file and the same size. *)
Theorem output_names_distinct (file1 stem1 file2 stem2 : str) (size1 size2 : nat * nat)
    (Hg1 : globbed_png file1 stem1) (Hg2 : globbed_png file2 stem2)
    (Hs1 : In size1 target_sizes) (Hs2 : In size2 target_sizes)
    (Hsame : output_name file1 size1 = output_name file2 size2) :
  file1 = file2 /\ size1 = size2.
Proof.
  unfold output_name in Hsame.
  rewrite (splitext_globbed _ _ Hg1), (splitext_globbed _ _ Hg2) in Hsame.
  apply app_inv_head in Hsame.
  destruct Hg1 as (-> & _), Hg2 as (-> & _).
  unfold target_sizes in Hs1, Hs2. simpl in Hs1, Hs2.
  destruct Hs1 as [<-|[<-|[]]], Hs2 as [<-|[<-|[]]];
    apply app_same_length in Hsame; try reflexivity;
    destruct Hsame as [-> Hsuf]; try (split; reflexivity);
    vm_compute in Hsuf; discriminate Hsuf.
Qed.

Lemma output_names_distinct_witness :
  globbed_png (lit "a.png") (lit "a") /\
  (lit "a.png" = lit "a.png" /\ (1244, 2688) = (1244, 2688)).
Proof.
  assert (G : globbed_png (lit "a.png") (lit "a")).
  { split; [reflexivity|]. split; [reflexivity|].
    exists (chr "a"), []. split; [reflexivity | discriminate]. }
  split; [exact G|].
  apply (output_names_distinct (lit "a.png") (lit "a") (lit "a.png") (lit "a")
           (1244, 2688) (1244, 2688) G G (or_introl eq_refl) (or_introl eq_refl) eq_refl).
Defined.

Section ResizerFacts.
Context {U : UnicodeDB} {I : Imaging}.

Lemma opened_app t1 t2 : opened (t1 ++ t2) = opened t1 ++ opened t2.
Proof.
  induction t1 as [|e t1 IH]; [reflexivity|].
  destruct e; simpl; now rewrite IH.
Qed.

(** Each call of [resize_screenshot] opens its input, once, however it
    ends. *)
Lemma resize_screenshot_opens input output size :
  opened (snd (resize_screenshot input output size)) = [input].
Proof.
  unfold resize_screenshot.
  destruct (img_open input) as [img|e]; [|reflexivity].
  destruct (if negb (str_eqb (img_mode img) (lit "RGB"))
            then img_convert img (lit "RGB") else Ok img) as [img'|e];
    [|reflexivity].
  destruct (img_resize img' size) as [resized|e]; [|reflexivity].
  destruct (img_save resized output); reflexivity.
Qed.

Lemma resize_file_events trace png_file :
  resize_file trace png_file
  = trace ++ (if already_processed png_file then [] else file_events png_file).
Proof.
  unfold resize_file, file_events.
  destruct (already_processed png_file); [now rewrite app_nil_r|].
  unfold target_sizes. cbn [fold_left flat_map].
  now rewrite app_nil_r, <- app_assoc.
Qed.

Lemma resize_files_events png_files : forall trace,
  fold_left resize_file png_files trace
  = trace ++ flat_map file_events
                      (filter (fun f => negb (already_processed f)) png_files).
Proof.
  induction png_files as [|f files IH]; intros trace; simpl.
  - now rewrite app_nil_r.
  - rewrite IH, resize_file_events, <- app_assoc.
    now destruct (already_processed f).
Qed.

Lemma file_events_open png_file :
  opened (file_events png_file) = map (fun _ => png_file) target_sizes.
Proof.
  unfold file_events, target_sizes. cbn [flat_map map].
  now rewrite !opened_app, !resize_screenshot_opens.
Qed.

Lemma opened_files_events files :
  opened (flat_map file_events files)
  = flat_map (fun f => map (fun _ => f) target_sizes) files.
Proof.
  induction files as [|f files IH]; [reflexivity|].
  cbn [flat_map]. now rewrite opened_app, file_events_open, IH.
Qed.

(** A name with ["app_store"] in it, in any letter casing, is taken for an
    output of an earlier run. *)
Lemma app_store_name_processed pre m post :
  any_casing m (lit "app_store") ->
  already_processed (pre ++ m ++ post) = true.
Proof.
  intros Hm. unfold already_processed, lower.
  destruct (lower_from_prefix pre [] (m ++ post)) as [front ->].
  rewrite (lower_from_marker _ _ Hm).
  - apply contains_middle.
  - repeat constructor.
Qed.
End ResizerFacts.

(** X13. When the output directory can be made, the resizer opens every
    globbed file once for each target size, in the order of the glob and
    whatever became of the files before it, except the files whose name
    contains ["app_store"] in any letter casing; when making the directory
    raises, it opens nothing.  A file with ["app_store"] in its name is
    never opened. *)
Theorem resizer_opens {U : UnicodeDB} {I : Imaging} (png_files : list str)
    (made : result unit) :
  opened (r_trace (resize_main png_files made))
  = match made with
    | Ok _ =>
        flat_map (fun f => map (fun _ => f) target_sizes)
                 (filter (fun f => negb (already_processed f)) png_files)
    | Raise _ => []
    end /\
  forall pre m post,
    any_casing m (lit "app_store") ->
    already_processed (pre ++ m ++ post) = true /\
    ~ In (pre ++ m ++ post) (opened (r_trace (resize_main png_files made))).
Proof.
  assert (E : opened (r_trace (resize_main png_files made))
              = match made with
                | Ok _ =>
                    flat_map (fun f => map (fun _ => f) target_sizes)
                             (filter (fun f => negb (already_processed f)) png_files)
                | Raise _ => []
                end).
  { unfold resize_main. destruct png_files as [|f files];
      [now destruct made|].
    destruct made as [u|e]; [|reflexivity]. cbn [r_trace].
    rewrite resize_files_events, !opened_app, opened_files_events.
    cbn [opened app]. now rewrite app_nil_r. }
  split; [exact E|].
  intros pre m post Hm.
  pose proof (app_store_name_processed pre m post Hm) as Hp.
  split; [exact Hp|].
  rewrite E. destruct made as [u|e]; [|intros []].
  intros Hin. apply in_flat_map in Hin as (f & Hf & Hin).
  apply filter_In in Hf as [_ Hf].
  apply in_map_iff in Hin as (_ & Ef & _). cbv beta in Ef.
  rewrite Ef, Hp in Hf. discriminate.
Qed.

Lemma resizer_opens_witness :
  opened (r_trace (resize_main (U := ascii_db) (I := broken_pillow)
            [lit "one.png"; lit "one_App_Store.png"; lit "two.png"] (Ok tt)))
  = [lit "one.png"; lit "one.png"; lit "two.png"; lit "two.png"] /\
  ~ In (lit "one_App_Store.png")
       (opened (r_trace (resize_main (U := ascii_db) (I := broken_pillow)
                  [lit "one.png"; lit "one_App_Store.png"; lit "two.png"] (Ok tt)))).
Proof.
  pose proof (resizer_opens (U := ascii_db) (I := broken_pillow)
                [lit "one.png"; lit "one_App_Store.png"; lit "two.png"] (Ok tt))
    as [E N].
  split.
  - rewrite E. vm_compute. reflexivity.
  - apply (proj2 (N (lit "one_") (lit "App_Store") (lit ".png")
                    ltac:(unfold any_casing;
                          repeat (apply Forall2_cons;
                                  [first [left; reflexivity | right; split; reflexivity]|]);
                          apply Forall2_nil))).
Defined.

Section ResizerRun.
Context {U : UnicodeDB} {I : Imaging}.

Lemma resize_printed_app t1 t2 :
  resize_printed (t1 ++ t2) = resize_printed t1 ++ resize_printed t2.
Proof.
  induction t1 as [|e t1 IH]; [reflexivity|].
  destruct e; simpl; now rewrite IH.
Qed.

(** Each call of [resize_screenshot] prints one line, and it is the
    "Resized" line exactly when the call returns [True]. *)
Lemma resize_screenshot_prints input output size :
  exists line,
    resize_printed (snd (resize_screenshot input output size)) = [line] /\
    (fst (resize_screenshot input output size) = true <->
     line = resized_line input size).
Proof.
  assert (D : forall e, error_line input e <> resized_line input size)
    by (intros e H; discriminate H).
  unfold resize_screenshot.
  destruct (img_open input) as [img|e];
    [|eexists; split; [reflexivity|]; split; [discriminate | intros H; now apply D in H]].
  destruct (if negb (str_eqb (img_mode img) (lit "RGB"))
            then img_convert img (lit "RGB") else Ok img) as [img'|e];
    [|eexists; split; [reflexivity|]; split; [discriminate | intros H; now apply D in H]].
  destruct (img_resize img' size) as [resized|e];
    [|eexists; split; [reflexivity|]; split; [discriminate | intros H; now apply D in H]].
  destruct (img_save resized output) as [u|e];
    eexists; (split; [reflexivity|]); split; auto; try discriminate;
    intros H; now apply D in H.
Qed.

Lemma file_events_prints files :
  length (resize_printed (flat_map file_events files))
  = length target_sizes * length files.
Proof.
  induction files as [|f files IH]; [reflexivity|].
  cbn [flat_map]. rewrite resize_printed_app, length_app, IH.
  unfold file_events, target_sizes. cbn [flat_map length].
  rewrite !resize_printed_app, app_nil_r, length_app.
  destruct (resize_screenshot_prints f (output_name f (1244, 2688)) (1244, 2688))
    as (l1 & -> & _).
  destruct (resize_screenshot_prints f (output_name f (1284, 2778)) (1284, 2778))
    as (l2 & -> & _).
  simpl. lia.
Qed.
End ResizerRun.

